(** * The sensitive-field masking engine of [src/security.py]

    A shallow embedding of [DataMasker] (with the part of [Settings] it
    reads) and the properties of its redaction strategies, of the strategy
    selection in [mask_value] and of the recursive traversal [mask_dict].

    Conventions.
    - A Python [str] is a list of characters; a character is one of the 256
      code points below U+0100 (Rocq's 8-bit [ascii], read as Latin-1).  On
      that range [str.lower], [str.isspace], [\d], [\s] and [repr] are
      written out in full below.
    - Python integers are [Z]; indices and slice bounds keep Python's
      reading of negative numbers.
    - Operations that can raise (indexing, tuple unpacking, [.items()] on a
      value that is no dict) return in the [result] monad.
    - The interpreter's limits (recursion depth, the digit limit of
      [str(int)]) are no part of [mask_value] and [mask_dict] as written
      first; [mask_value_within] and [mask_dict_within] write them in, and
      the two pairs agree wherever the limits are not reached. *)

From Stdlib Require Import Ascii String List ZArith Lia Bool Arith PeanoNat.
From Stdlib Require Import DecimalString.
Import ListNotations.

Open Scope string_scope.
Open Scope list_scope.

(** ** Strings *)

Definition str : Type := list ascii.

Definition lit (s : string) : str := list_ascii_of_string s.
Coercion lit : string >-> str.

Definition code (c : ascii) : N := N_of_ascii c.

Fixpoint str_eqb (a b : str) : bool :=
  match a, b with
  | [], [] => true
  | x :: a', y :: b' => Ascii.eqb x y && str_eqb a' b'
  | _, _ => false
  end.

(** [a.startswith(b)], used by the substring test. *)
Fixpoint startswith (s p : str) {struct p} : bool :=
  match p, s with
  | [], _ => true
  | x :: p', y :: s' => Ascii.eqb x y && startswith s' p'
  | _ :: _, [] => false
  end.

(** [sub in s] on strings: [sub] occurs in [s] as a contiguous run. *)
Fixpoint contains (sub s : str) : bool :=
  startswith s sub ||
  match s with
  | [] => false
  | _ :: s' => contains sub s'
  end.

(** [c in s] for a one-character string [c]. *)
Definition has_char (c : ascii) (s : str) : bool :=
  existsb (Ascii.eqb c) s.

(** [str.isspace] of one character, which is also what [\s] matches:
    TAB..CR, FS..US, space, NEL and the no-break space. *)
Definition isspace (c : ascii) : bool :=
  let n := code c in
  ((9 <=? n) && (n <=? 13) || (28 <=? n) && (n <=? 32) ||
   (n =? 133) || (n =? 160))%N.

(** [\d]: below U+0100 the decimal digits are 0..9. *)
Definition isdigit (c : ascii) : bool :=
  let n := code c in ((48 <=? n) && (n <=? 57))%N.

Definition is_upper_az (c : ascii) : bool :=
  let n := code c in ((65 <=? n) && (n <=? 90))%N.

Definition is_lower_az (c : ascii) : bool :=
  let n := code c in ((97 <=? n) && (n <=? 122))%N.

(** [str.lower] of one character: A..Z and the Latin-1 capitals U+00C0 ..
    U+00DE (the multiplication sign U+00D7 apart) move up by 32. *)
Definition lower_char (c : ascii) : ascii :=
  let n := code c in
  if ((65 <=? n) && (n <=? 90) ||
      (192 <=? n) && (n <=? 222) && negb (n =? 215))%N
  then ascii_of_N (n + 32) else c.

Definition lower (s : str) : str := map lower_char s.

(** [str.strip()]: leading and trailing whitespace removed. *)
Fixpoint lstrip (s : str) : str :=
  match s with
  | c :: s' => if isspace c then lstrip s' else s
  | [] => []
  end.

Definition strip (s : str) : str := rev (lstrip (rev (lstrip s))).

(** [s.split(sep)] for a one-character [sep]: always at least one piece. *)
Fixpoint split (sep : ascii) (s : str) : list str :=
  match s with
  | [] => [[]]
  | c :: s' =>
      if Ascii.eqb c sep then [] :: split sep s'
      else match split sep s' with
           | p :: ps => (c :: p) :: ps
           | [] => [[c]]
           end
  end.

(** [s.rsplit(sep, 1)] for a one-character [sep]: cut at the last [sep],
    or the whole string as the only piece. *)
Fixpoint rsplit1 (sep : ascii) (s : str) : list str :=
  match s with
  | [] => [[]]
  | c :: s' =>
      match rsplit1 sep s' with
      | [p] => if Ascii.eqb c sep then [[]; p] else [c :: p]
      | [p; q] => [c :: p; q]
      | other => other
      end
  end.

(** ** Integers, lengths, indices and slices *)

Definition len (s : str) : Z := Z.of_nat (length s).

(** ["*" * n]: the empty string when [n] is not positive. *)
Definition stars (n : Z) : str := repeat "*"%char (Z.to_nat n).

(** [s[:stop]] *)
Definition slice_to (s : str) (stop : Z) : str :=
  let stop' := if (stop <? 0)%Z then Z.max 0 (len s + stop) else stop in
  firstn (Z.to_nat stop') s.

(** [s[start:]] *)
Definition slice_from (s : str) (start : Z) : str :=
  let start' := if (start <? 0)%Z then Z.max 0 (len s + start) else start in
  skipn (Z.to_nat start') s.

(** ** Errors *)

Inductive exn : Type :=
| IndexError
| ValueError
| AttributeError
| TypeError
| RecursionError.

Inductive result (A : Type) : Type :=
| Ok (a : A)
| Raise (e : exn).

Arguments Ok {A} a.
Arguments Raise {A} e.

Definition bind {A B : Type} (r : result A) (k : A -> result B) : result B :=
  match r with
  | Ok a => k a
  | Raise e => Raise e
  end.

Declare Scope py_scope.
Notation "x <- c1 ;; c2" := (bind c1 (fun x => c2))
  (at level 61, c1 at next level, right associativity) : py_scope.
Notation "' pat <- c1 ;; c2" := (bind c1 (fun x => match x with pat => c2 end))
  (at level 61, pat pattern, c1 at next level, right associativity) : py_scope.
Open Scope py_scope.

(** [s[i]]: [IndexError] outside [-len(s) .. len(s)-1]. *)
Definition index (s : str) (i : Z) : result ascii :=
  let j := if (i <? 0)%Z then (len s + i)%Z else i in
  if (j <? 0)%Z then Raise IndexError
  else match nth_error s (Z.to_nat j) with
       | Some c => Ok c
       | None => Raise IndexError
       end.

(** [a, b = pieces]: [ValueError] unless there are exactly two. *)
Definition unpack2 (pieces : list str) : result (str * str) :=
  match pieces with
  | [a; b] => Ok (a, b)
  | _ => Raise ValueError
  end.

(** ** The redaction strategies *)

(** [re.sub(r"[-\s]", "", value)] *)
Definition is_sep (c : ascii) : bool := Ascii.eqb c "-"%char || isspace c.

Definition strip_seps (value : str) : str :=
  filter (fun c => negb (is_sep c)) value.

Definition _mask_email (value : str) : result str :=
  if has_char "@"%char value then
    '(local, domain) <- unpack2 (rsplit1 "@"%char value) ;;
    masked_local <-
      (if (len local >? 2)%Z then
         first <- index local 0 ;;
         last <- index local (-1) ;;
         Ok ([first] ++ stars (len local - 2) ++ [last])
       else Ok (stars (len local))) ;;
    Ok (masked_local ++ lit "@" ++ domain)
  else Ok value.

Definition _mask_phone (value : str) : result str :=
  let digits := strip_seps value in
  if (len digits >=? 4)%Z then
    Ok (slice_to digits 2 ++ stars (len digits - 4) ++ slice_from digits (-2))
  else Ok (stars (len digits)).

Definition _mask_credit_card (value : str) : result str :=
  let digits := strip_seps value in
  if (len digits >=? 4)%Z then
    Ok (stars (len digits - 4) ++ slice_from digits (-4))
  else Ok (stars (len digits)).

Definition _mask_ssn (value : str) : result str :=
  Ok (lit "***-**-" ++ slice_from (strip_seps value) (-4)).

Definition _mask_generic (value : str) : result str :=
  if (len value <=? 2)%Z then Ok (stars (len value))
  else
    first <- index value 0 ;;
    last <- index value (-1) ;;
    Ok ([first] ++ stars (len value - 2) ++ [last]).

(** ** Content patterns

    Each content pattern of the rule table is a concatenation of character
    classes, each with a repetition range: [c{lo,hi}], with [c+] for
    [c{1,}] and [c?] for [c{0,1}]. *)

Record atom : Type := Atom {
  cls : ascii -> bool;
  lo : nat;
  hi : option nat   (* [None]: no upper bound *)
}.

Definition pattern : Type := list atom.

Definition hi_pred (h : option nat) : option nat :=
  match h with
  | Some n => Some (Nat.pred n)
  | None => None
  end.

(** [rep c lo hi k s]: some run of [lo..hi] characters of class [c] at the
    head of [s] is followed by a remainder that [k] accepts.  Longer runs
    are tried first, as the backtracking matcher does. *)
Fixpoint rep (c : ascii -> bool) (lo : nat) (hi : option nat)
    (k : str -> bool) (s : str) {struct s} : bool :=
  match lo with
  | S lo' =>
      match hi, s with
      | Some O, _ => false
      | _, x :: s' => c x && rep c lo' (hi_pred hi) k s'
      | _, [] => false
      end
  | O =>
      match hi, s with
      | Some O, _ => k s
      | _, x :: s' => (c x && rep c O (hi_pred hi) k s') || k s
      | _, [] => k s
      end
  end.

(** [re.match(p, s) is not None]: the pattern matches at position 0; what
    follows the match is not looked at. *)
Fixpoint re_match (p : pattern) (s : str) : bool :=
  match p with
  | [] => true
  | a :: p' => rep (cls a) (lo a) (hi a) (re_match p') s
  end.

Definition one_of (chars : string) (c : ascii) : bool := has_char c chars.
Definition is_az (c : ascii) : bool := is_lower_az c || is_upper_az c.
Definition is_char (x c : ascii) : bool := Ascii.eqb c x.

Definition plus (c : ascii -> bool) : atom := Atom c 1 None.
Definition once (c : ascii -> bool) : atom := Atom c 1 (Some 1).
Definition opt (c : ascii -> bool) : atom := Atom c 0 (Some 1).
Definition times (c : ascii -> bool) (n : nat) : atom := Atom c n (Some n).
Definition between (c : ascii -> bool) (n m : nat) : atom := Atom c n (Some m).
Definition at_least (c : ascii -> bool) (n : nat) : atom := Atom c n None.

(** [[a-zA-Z0-9._%+-]+@[a-zA-Z0-9.-]+\.[a-zA-Z]{2,}] *)
Definition email_pattern : pattern :=
  [ plus (fun c => is_az c || isdigit c || one_of "._%+-" c);
    once (is_char "@");
    plus (fun c => is_az c || isdigit c || one_of ".-" c);
    once (is_char ".");
    at_least is_az 2 ].

(** [\d{2,4}[-\s]?\d{3,4}[-\s]?\d{3,4}] *)
Definition phone_pattern : pattern :=
  [ between isdigit 2 4; opt is_sep; between isdigit 3 4; opt is_sep;
    between isdigit 3 4 ].

(** [\d{4}[-\s]?\d{4}[-\s]?\d{4}[-\s]?\d{4}] *)
Definition credit_card_pattern : pattern :=
  [ times isdigit 4; opt is_sep; times isdigit 4; opt is_sep;
    times isdigit 4; opt is_sep; times isdigit 4 ].

(** [\d{3}[-\s]?\d{2}[-\s]?\d{4}] *)
Definition ssn_pattern : pattern :=
  [ times isdigit 3; opt is_sep; times isdigit 2; opt is_sep;
    times isdigit 4 ].

(** ** Structured values *)

(** A scalar that is none of [None], [bool], [int], [str] (a float, a
    [Decimal], [bytes], a date) is kept as the two texts the engine can
    observe of it: what [str()] and what [repr()] print. *)
Inductive scalar : Type :=
| SNone
| SBool (b : bool)
| SInt (n : Z)
| SStr (s : str)
| SOther (shown printed : str).

#[local] Set Warnings "-register-all".

(** A [dict] keeps its insertion order: a list of entries, with distinct
    keys when it is well formed. *)
Inductive value : Type :=
| VScalar (x : scalar)
| VDict (items : list (str * value))
| VList (elems : list value).

Abbreviation dict := (list (str * value)).

Definition VStr (s : str) : value := VScalar (SStr s).

Definition is_None (v : value) : bool :=
  match v with
  | VScalar SNone => true
  | _ => false
  end.

(** *** [str()] and [repr()] *)

Definition str_of_int (n : Z) : str := NilZero.string_of_int (Z.to_int n).

Definition hex_digit (n : N) : ascii :=
  if (n <? 10)%N then ascii_of_N (48 + n) else ascii_of_N (87 + n).

(** Characters [repr] writes as an escape: the C0 controls and DEL, the C1
    controls, the no-break space and the soft hyphen. *)
Definition unprintable (c : ascii) : bool :=
  let n := code c in
  ((n <? 32) || (127 <=? n) && (n <=? 160) || (n =? 173))%N.

Definition repr_char (quote c : ascii) : str :=
  if Ascii.eqb c quote || Ascii.eqb c "\"%char then ["\"%char; c]
  else if Ascii.eqb c "009"%char then "\t"
  else if Ascii.eqb c "010"%char then "\n"
  else if Ascii.eqb c "013"%char then "\r"
  else if unprintable c then
    let n := code c in
    lit "\x" ++ [hex_digit (n / 16); hex_digit (n mod 16)]
  else [c].

Definition repr_str (s : str) : str :=
  let quote :=
    if has_char "'"%char s && negb (has_char "034"%char s)
    then "034"%char else "'"%char in
  [quote] ++ flat_map (repr_char quote) s ++ [quote].

Definition str_scalar (x : scalar) : str :=
  match x with
  | SNone => "None"
  | SBool true => "True"
  | SBool false => "False"
  | SInt n => str_of_int n
  | SStr s => s
  | SOther shown _ => shown
  end.

Definition repr_scalar (x : scalar) : str :=
  match x with
  | SStr s => repr_str s
  | SOther _ printed => printed
  | _ => str_scalar x
  end.

(** [sep.join(pieces)] *)
Fixpoint join (sep : str) (pieces : list str) : str :=
  match pieces with
  | [] => []
  | [p] => p
  | p :: rest => p ++ sep ++ join sep rest
  end.

Fixpoint py_repr (v : value) : str :=
  match v with
  | VScalar x => repr_scalar x
  | VDict items =>
      lit "{" ++
      join ", " (map (fun kv => let '(k, x) := kv in
                                repr_str k ++ lit ": " ++ py_repr x) items) ++
      lit "}"
  | VList elems => lit "[" ++ join ", " (map py_repr elems) ++ lit "]"
  end.

Definition py_str (v : value) : str :=
  match v with
  | VScalar x => str_scalar x
  | _ => py_repr v
  end.


(** ** Settings ([src/config.py]) *)

Module Settings.

Record t : Type := {
  enable_data_masking : bool;
  masked_fields : str
}.

(** The defaults of the two fields. *)
Definition default : t :=
  {| enable_data_masking := true;
     masked_fields := "email,phone,ssn,credit_card,password" |}.

Definition masked_fields_list (self : t) : list str :=
  map (fun f => lower (strip f)) (split "," (masked_fields self)).

End Settings.

(** ** DataMasker *)

Record DataMasker : Type := {
  masked_fields : list str;
  enabled : bool
}.

(** [masked_fields or settings.masked_fields_list]: an absent argument and
    an empty list are both falsy. *)
Definition DataMasker__init__ (settings : Settings.t)
    (masked_fields : option (list str)) : DataMasker :=
  {| masked_fields :=
       match masked_fields with
       | Some (f :: fs) => f :: fs
       | _ => Settings.masked_fields_list settings
       end;
     enabled := Settings.enable_data_masking settings |}.

(** An entry of [self.patterns]: the key and the pair it maps to. *)
Definition rule : Type := (str * (pattern * (str -> result str)))%type.

Definition rule_name (r : rule) : str := fst r.
Definition rule_pattern (r : rule) : pattern := fst (snd r).
Definition rule_strategy (r : rule) : str -> result str := snd (snd r).

(** [self.patterns], in the order the dict literal declares its keys. *)
Definition patterns : list rule :=
  [ (lit "email", (email_pattern, _mask_email));
    (lit "phone", (phone_pattern, _mask_phone));
    (lit "credit_card", (credit_card_pattern, _mask_credit_card));
    (lit "ssn", (ssn_pattern, _mask_ssn)) ].

(** The [for] loop of [mask_value]: the first entry whose name occurs in
    [field_lower] and whose pattern matches [str_value] returns; [None]
    when the loop runs to its end. *)
Fixpoint try_patterns (ps : list rule) (field_lower str_value : str)
    : option (result str) :=
  match ps with
  | [] => None
  | (pattern_name, (pat, mask_func)) :: rest =>
      if contains pattern_name field_lower then
        if re_match pat str_value then Some (mask_func str_value)
        else try_patterns rest field_lower str_value
      else try_patterns rest field_lower str_value
  end.

(** [any(masked in field_lower for masked in self.masked_fields)] *)
Definition should_mask (self : DataMasker) (field_lower : str) : bool :=
  existsb (fun masked => contains masked field_lower) (masked_fields self).

Definition mask_value (self : DataMasker) (field_name : str) (v : value)
    : result value :=
  if negb (enabled self) || is_None v then Ok v
  else
    let field_lower := lower field_name in
    if negb (should_mask self field_lower) then Ok v
    else
      let str_value := py_str v in
      match try_patterns patterns field_lower str_value with
      | Some r => masked <- r ;; Ok (VStr masked)
      | None => masked <- _mask_generic str_value ;; Ok (VStr masked)
      end.

(** [result[key] = v] on an insertion-ordered dict: an existing key keeps
    its place, a new key goes last. *)
Fixpoint dict_set (d : dict) (key : str) (v : value) : dict :=
  match d with
  | [] => [(key, v)]
  | (k, x) :: d' =>
      if str_eqb k key then (k, v) :: d' else (k, x) :: dict_set d' key v
  end.

(** A list comprehension whose element expression can raise. *)
Fixpoint map_m {A B : Type} (f : A -> result B) (l : list A)
    : result (list B) :=
  match l with
  | [] => Ok []
  | a :: l' => b <- f a ;; bs <- map_m f l' ;; Ok (b :: bs)
  end.

(** [mask_dict] on a value: [data.items()] raises on what is no dict. *)
Fixpoint mask_dict_rec (self : DataMasker) (data : value) {struct data}
    : result dict :=
  match data with
  | VDict items =>
      fold_left
        (fun (acc : result dict) (kv : str * value) =>
           result <- acc ;;
           let '(key, v) := kv in
           masked <-
             match v with
             | VDict _ => d <- mask_dict_rec self v ;; Ok (VDict d)
             | VList elems =>
                 l <- map_m
                        (fun item =>
                           match item with
                           | VDict _ =>
                               d <- mask_dict_rec self item ;; Ok (VDict d)
                           | _ => mask_value self key item
                           end) elems ;;
                 Ok (VList l)
             | _ => mask_value self key v
             end ;;
           Ok (dict_set result key masked))
        items (Ok [])
  | _ => Raise AttributeError
  end.

Definition mask_dict (self : DataMasker) (data : dict) : result dict :=
  mask_dict_rec self (VDict data).

(** [mask_list]: [mask_dict] on every element. *)
Definition mask_list (self : DataMasker) (data : list value)
    : result (list dict) :=
  map_m (mask_dict_rec self) data.

(** The module-level instance [data_masker = DataMasker()] under the
    default settings. *)
Definition data_masker : DataMasker :=
  DataMasker__init__ Settings.default None.

(** ** What the statements below are read against *)

(** [sub] is a substring of [s]. *)
Definition substring (sub s : str) : Prop :=
  exists pre post, s = pre ++ sub ++ post.

Definition within (h : option nat) (n : nat) : Prop :=
  match h with
  | Some m => n <= m
  | None => True
  end.

(** [w] is a run of [lo..hi] characters of the atom's class. *)
Definition in_atom (a : atom) (w : str) : Prop :=
  Forall (fun c => cls a c = true) w /\ lo a <= length w /\
  within (hi a) (length w).

(** The language of a pattern: one run per atom, in order. *)
Inductive matches : pattern -> str -> Prop :=
| matches_nil : matches [] []
| matches_cons (a : atom) (p : pattern) (w1 w2 : str) :
    in_atom a w1 -> matches p w2 -> matches (a :: p) (w1 ++ w2).

(** A prefix match: some leading part of [s] is in the language; the rest
    of [s] is free. *)
Definition prefix_matches (p : pattern) (s : str) : Prop :=
  exists w rest, s = w ++ rest /\ matches p w.

(** Both conditions of a rule: its name occurs in the lowercased field
    name and its pattern matches a prefix of the value's text. *)
Definition rule_applies (field_name text : str) (r : rule) : Prop :=
  substring (rule_name r) (lower field_name) /\
  prefix_matches (rule_pattern r) text.

Definition rule_appliesb (field_name text : str) (r : rule) : bool :=
  contains (rule_name r) (lower field_name) && re_match (rule_pattern r) text.

(** The strategy [mask_value] applies to a field it masks. *)
Definition selected (field_name text : str) : str -> result str :=
  match find (rule_appliesb field_name text) patterns with
  | Some r => rule_strategy r
  | None => _mask_generic
  end.

(** Of the rules that apply, the one standing first in the table, no later
    than position [i], is the one [mask_value] runs. *)
Definition first_applying_rule_runs (self : DataMasker) (field_name : str)
    (v : value) (i : nat) : Prop :=
  exists (k : nat) (rk : rule) (masked : str),
    k <= i /\ nth_error patterns k = Some rk /\
    rule_applies field_name (py_str v) rk /\
    (forall m rm, m < k -> nth_error patterns m = Some rm ->
                  ~ rule_applies field_name (py_str v) rm) /\
    rule_strategy rk (py_str v) = Ok masked /\
    mask_value self field_name v = Ok (VStr masked).

(** The field name is sensitive under the masker's list. *)
Definition sensitive (self : DataMasker) (field_name : str) : Prop :=
  exists masked, In masked (masked_fields self) /\
                 substring masked (lower field_name).

(** *** Well-formed values *)

Fixpoint distinct (keys : list str) : bool :=
  match keys with
  | [] => true
  | k :: rest => negb (existsb (str_eqb k) rest) && distinct rest
  end.

(** Every dict in the value, at any depth, has distinct keys. *)
Fixpoint well_formed (v : value) : bool :=
  match v with
  | VScalar _ => true
  | VDict items =>
      distinct (map fst items) &&
      forallb (fun kv => let '(_, x) := kv in well_formed x) items
  | VList elems => forallb well_formed elems
  end.

(** *** The traversal without its error plumbing

    [mask_field] is the expression [mask_dict] stores under [key];
    [mask_pure] is the same traversal as a plain function, the form the
    structural statements are proved on. *)

Definition mask_field (self : DataMasker) (key : str) (v : value)
    : result value :=
  match v with
  | VDict _ => d <- mask_dict_rec self v ;; Ok (VDict d)
  | VList elems =>
      l <- map_m
             (fun item =>
                match item with
                | VDict _ => d <- mask_dict_rec self item ;; Ok (VDict d)
                | _ => mask_value self key item
                end) elems ;;
      Ok (VList l)
  | _ => mask_value self key v
  end.

Definition leaf (self : DataMasker) (key : str) (v : value) : value :=
  match mask_value self key v with
  | Ok r => r
  | Raise _ => v
  end.

Definition mask_field_with (rec : value -> value) (self : DataMasker)
    (key : str) (v : value) : value :=
  match v with
  | VDict _ => rec v
  | VList elems =>
      VList (map (fun item =>
                    match item with
                    | VDict _ => rec item
                    | _ => leaf self key item
                    end) elems)
  | _ => leaf self key v
  end.

Fixpoint mask_pure (self : DataMasker) (data : value) {struct data} : value :=
  match data with
  | VDict items =>
      VDict (map (fun kv => let '(key, v) := kv in
                            (key, mask_field_with (mask_pure self) self key v))
                 items)
  | _ => data
  end.

(** One turn of the loop of [mask_dict], with [F] for the expression it
    stores. *)
Definition store (F : str -> value -> result value) (acc : result dict)
    (kv : str * value) : result dict :=
  result <- acc ;;
  let '(key, v) := kv in
  masked <- F key v ;;
  Ok (dict_set result key masked).

(** The entries [mask_pure] builds for a dict. *)
Definition pure_items (self : DataMasker) (items : dict) : dict :=
  map (fun kv => let '(key, v) := kv in
                 (key, mask_field_with (mask_pure self) self key v)) items.

(** The element [mask_pure] builds for an element of a list under [key]. *)
Definition pure_elem (self : DataMasker) (key : str) (item : value) : value :=
  match item with
  | VDict _ => mask_pure self item
  | _ => leaf self key item
  end.

(** *** Shape *)

(** [same_shape v w]: [w] has the keys of [v] in the same order in every
    dict and as many elements in the same order in every list; a leaf of
    [w] is the leaf of [v] at that place or a string. *)
Inductive same_shape : value -> value -> Prop :=
| shape_leaf (x y : scalar) :
    y = x \/ (exists s, y = SStr s) -> same_shape (VScalar x) (VScalar y)
| shape_dict (items items' : dict) :
    Forall2 (fun kv kv' => fst kv = fst kv' /\ same_shape (snd kv) (snd kv'))
            items items' ->
    same_shape (VDict items) (VDict items')
| shape_list (elems elems' : list value) :
    Forall2 same_shape elems elems' ->
    same_shape (VList elems) (VList elems').

(** The field is one whose scalars [mask_value] rewrites. *)
Definition masks (self : DataMasker) (key : str) : bool :=
  enabled self && should_mask self (lower key).

(** No list is a direct element of a list held by a field that [self]
    masks, in any dict the traversal goes through. *)
Fixpoint nested_lists_unmasked (self : DataMasker) (v : value) : bool :=
  match v with
  | VDict items =>
      forallb
        (fun kv =>
           let '(key, x) := kv in
           match x with
           | VDict _ => nested_lists_unmasked self x
           | VList elems =>
               forallb (fun item =>
                          match item with
                          | VDict _ => nested_lists_unmasked self item
                          | VList _ => negb (masks self key)
                          | VScalar _ => true
                          end) elems
           | VScalar _ => true
           end) items
  | _ => true
  end.

Definition elem_ok (self : DataMasker) (key : str) (item : value) : bool :=
  match item with
  | VDict _ => nested_lists_unmasked self item
  | VList _ => negb (masks self key)
  | VScalar _ => true
  end.

Definition field_ok (self : DataMasker) (key : str) (x : value) : bool :=
  match x with
  | VDict _ => nested_lists_unmasked self x
  | VList elems => forallb (elem_ok self key) elems
  | VScalar _ => true
  end.

(** *** Places in a value *)

Inductive step : Type :=
| Field (key : str)
| Item (i : nat).

(** [d[key]] *)
Fixpoint lookup (key : str) (d : dict) : option value :=
  match d with
  | [] => None
  | (k, x) :: d' => if str_eqb k key then Some x else lookup key d'
  end.

(** The value a path of keys and positions leads to. *)
Fixpoint get (path : list step) (v : value) : option value :=
  match path with
  | [] => Some v
  | Field key :: rest =>
      match v with
      | VDict d =>
          match lookup key d with
          | Some x => get rest x
          | None => None
          end
      | _ => None
      end
  | Item i :: rest =>
      match v with
      | VList l =>
          match nth_error l i with
          | Some x => get rest x
          | None => None
          end
      | _ => None
      end
  end.

(** The field name a place belongs to: the last key on the path. *)
Fixpoint governing (path : list step) : option str :=
  match path with
  | [] => None
  | Field key :: rest =>
      match governing rest with
      | Some k => Some k
      | None => Some key
      end
  | Item _ :: rest => governing rest
  end.

(** The paths [mask_dict] walks: it never steps from a list into a list. *)
Fixpoint walked (path : list step) : bool :=
  match path with
  | Item _ :: ((Item _ :: _) as rest) => false
  | _ :: rest => walked rest
  | [] => true
  end.

(** The place is an element of a list: the path ends in a position. *)
Fixpoint ends_in_item (path : list step) : bool :=
  match path with
  | [] => false
  | [Item _] => true
  | _ :: rest => ends_in_item rest
  end.

(** ** The interpreter's limits

    Two errors come from the interpreter and not from a statement of the
    code: [str()] of an int with more digits than the interpreter converts
    raises [ValueError] (CPython 3.11 on, 4300 digits unless configured),
    and a call nested deeper than the recursion limit raises
    [RecursionError].  [mask_value] and [mask_dict] are written out again
    below with both: [frames] is the number of calls, nested in one
    another, that the interpreter still allows when the function is
    entered.  [RecursionError] is raised where the frames run out at a call
    of the code itself, and at the library calls of [mask_value] as soon as
    fewer than their bound are left. *)

(** What the interpreter allows.  [max_str_digits] is
    [sys.get_int_max_str_digits()], with 0 for no limit.  A list
    comprehension takes [comprehension_frames] calls of its own (one up to
    Python 3.11, none from 3.12 on).  [library_frames] bounds the depth of
    the calls [mask_value] makes below itself, other than printing a
    container: [any] over the generator, [re.match] and what it compiles,
    the strategy and its [re.sub]. *)
Record Interpreter : Type := {
  max_str_digits : nat;
  comprehension_frames : nat;
  library_frames : nat
}.

(** The int has more digits than [str()] converts (the sign does not
    count). *)
Definition too_long (I : Interpreter) (n : Z) : bool :=
  negb (Nat.eqb (max_str_digits I) 0) &&
  (10 ^ Z.of_nat (max_str_digits I) <=? Z.abs n)%Z.

(** [str(n)] and [repr(n)] of an int. *)
Definition str_int_within (I : Interpreter) (n : Z) : result str :=
  if too_long I n then Raise ValueError else Ok (str_of_int n).

(** [repr(v)], element by element in order; every nested [repr] is one
    more call. *)
Fixpoint repr_within (I : Interpreter) (frames : nat) (v : value) {struct v}
    : result str :=
  match frames with
  | O => Raise RecursionError
  | S f =>
      match v with
      | VScalar (SInt n) => str_int_within I n
      | VScalar x => Ok (repr_scalar x)
      | VDict items =>
          pieces <- map_m (fun kv => let '(k, x) := kv in
                                     r <- repr_within I f x ;;
                                     Ok (repr_str k ++ lit ": " ++ r)) items ;;
          Ok (lit "{" ++ join ", " pieces ++ lit "}")
      | VList elems =>
          pieces <- map_m (repr_within I f) elems ;;
          Ok (lit "[" ++ join ", " pieces ++ lit "]")
      end
  end.

(** [str(v)] *)
Definition str_within (I : Interpreter) (frames : nat) (v : value)
    : result str :=
  match v with
  | VScalar (SInt n) => str_int_within I n
  | VScalar x => Ok (str_scalar x)
  | _ => repr_within I frames v
  end.

(** [mask_value] entered with [frames] calls left.  The call takes one;
    the early return makes no further call; past it the library calls are
    given their [library_frames] and printing runs in what is left. *)
Definition mask_value_within (I : Interpreter) (frames : nat)
    (self : DataMasker) (field_name : str) (v : value) : result value :=
  match frames with
  | O => Raise RecursionError
  | S f =>
      if negb (enabled self) || is_None v then Ok v
      else if Nat.ltb f (library_frames I) then Raise RecursionError
      else
        let field_lower := lower field_name in
        if negb (should_mask self field_lower) then Ok v
        else
          str_value <- str_within I (f - library_frames I) v ;;
          match try_patterns patterns field_lower str_value with
          | Some r => masked <- r ;; Ok (VStr masked)
          | None => masked <- _mask_generic str_value ;; Ok (VStr masked)
          end
  end.

(** [mask_dict] entered with [frames] calls left: one for the call, and
    the comprehension's own for the elements of a list. *)
Fixpoint mask_dict_rec_within (I : Interpreter) (frames : nat)
    (self : DataMasker) (data : value) {struct data} : result dict :=
  match frames with
  | O => Raise RecursionError
  | S f =>
      match data with
      | VDict items =>
          fold_left
            (fun (acc : result dict) (kv : str * value) =>
               result <- acc ;;
               let '(key, v) := kv in
               masked <-
                 match v with
                 | VDict _ =>
                     d <- mask_dict_rec_within I f self v ;; Ok (VDict d)
                 | VList elems =>
                     if Nat.ltb f (comprehension_frames I) then Raise RecursionError
                     else
                       l <- map_m
                              (fun item =>
                                 match item with
                                 | VDict _ =>
                                     d <- mask_dict_rec_within I
                                            (f - comprehension_frames I)
                                            self item ;;
                                     Ok (VDict d)
                                 | _ =>
                                     mask_value_within I
                                       (f - comprehension_frames I)
                                       self key item
                                 end) elems ;;
                       Ok (VList l)
                 | _ => mask_value_within I f self key v
                 end ;;
               Ok (dict_set result key masked))
            items (Ok [])
      | _ => Raise AttributeError
      end
  end.

Definition mask_dict_within (I : Interpreter) (frames : nat)
    (self : DataMasker) (data : dict) : result dict :=
  mask_dict_rec_within I frames self (VDict data).

(** How deep containers nest in a value. *)
Fixpoint depth (v : value) : nat :=
  match v with
  | VScalar _ => 0
  | VDict items =>
      S (list_max (map (fun kv => let '(_, x) := kv in depth x) items))
  | VList elems => S (list_max (map depth elems))
  end.

(** No int in the value has more digits than [str()] converts. *)
Fixpoint ints_short (I : Interpreter) (v : value) : bool :=
  match v with
  | VScalar (SInt n) => negb (too_long I n)
  | VScalar _ => true
  | VDict items =>
      forallb (fun kv => let '(_, x) := kv in ints_short I x) items
  | VList elems => forallb (ints_short I) elems
  end.

(** The expression [mask_dict] stores under [key], with [frames] calls
    left inside the call of [mask_dict]. *)
Definition mask_field_within (I : Interpreter) (frames : nat)
    (self : DataMasker) (key : str) (v : value) : result value :=
  match v with
  | VDict _ => d <- mask_dict_rec_within I frames self v ;; Ok (VDict d)
  | VList elems =>
      if Nat.ltb frames (comprehension_frames I) then Raise RecursionError
      else
        l <- map_m
               (fun item =>
                  match item with
                  | VDict _ =>
                      d <- mask_dict_rec_within I
                             (frames - comprehension_frames I) self item ;;
                      Ok (VDict d)
                  | _ =>
                      mask_value_within I (frames - comprehension_frames I)
                        self key item
                  end) elems ;;
        Ok (VList l)
  | _ => mask_value_within I frames self key v
  end.


(** ** Examples used below *)

(** A list directly inside the list of a masked field. *)
Definition nested_list_record : dict :=
  [ (lit "email", VList [VList [VScalar (SInt 1); VScalar (SInt 2)]]) ].

(** A dict inside a list directly inside the list of a masked field. *)
Definition list_in_list_record : dict :=
  [ (lit "email", VList [VList [VDict [(lit "name", VStr "Li")]]]) ].

(** The nested scenario of the specification, with a name and a null. *)
Definition team_record : dict :=
  [ (lit "manager", VDict [ (lit "name", VStr "Li");
                            (lit "email", VStr "li@co.com") ]);
    (lit "reports", VList [ VDict [(lit "email", VStr "a@co.com")];
                            VDict [(lit "email", VStr "b@co.com")] ]);
    (lit "phone", VList [ VStr "0912-345-678"; VScalar SNone ]);
    (lit "tags", VList [ VList [VStr "x"]; VScalar (SInt 7) ]) ].

Definition disabled_masker : DataMasker :=
  DataMasker__init__
    {| Settings.enable_data_masking := false;
       Settings.masked_fields := "email,phone,ssn,credit_card,password" |}
    None.

(** Masker built from an explicitly empty list of fields. *)
Definition masker_of_empty_list : DataMasker :=
  DataMasker__init__ Settings.default (Some []).

(** Masker built from settings whose field string is empty. *)
Definition masker_of_empty_setting : DataMasker :=
  DataMasker__init__
    {| Settings.enable_data_masking := true; Settings.masked_fields := "" |}
    None.

(** The default limits of CPython 3.11, with 32 calls allowed for the
    library. *)
Definition default_interpreter : Interpreter :=
  {| max_str_digits := 4300; comprehension_frames := 1; library_frames := 32 |}.

(** [{"a": {"a": ... None}}], [n] dicts deep. *)
Definition nested_dicts (n : nat) : value :=
  Nat.iter n (fun v => VDict [(lit "a", v)]) (VScalar SNone).

Definition phone_rule : rule := (lit "phone", (phone_pattern, _mask_phone)).
Definition ssn_rule : rule := (lit "ssn", (ssn_pattern, _mask_ssn)).

(** ** Further code and notions *)

(** [DataSourceManager.fetch_from_api], the step after [response.json()]:
    a list goes to [mask_list], a dict to [mask_dict], anything else is
    returned as it is.  The surrounding [except] catches only
    [httpx.HTTPError], so what this step raises reaches the caller. *)
Definition fetch_from_api_mask (self : DataMasker) (data : value)
    : result value :=
  match data with
  | VList items => out <- mask_list self items ;; Ok (VList (map VDict out))
  | VDict d => out <- mask_dict self d ;; Ok (VDict out)
  | _ => Ok data
  end.

Definition is_dict (v : value) : bool :=
  match v with
  | VDict _ => true
  | _ => false
  end.

(** [same_frame v w]: [w] has the keys of [v] in the same order in every
    dict the traversal walks and as many elements in every list it walks;
    a scalar is kept or becomes a string, and so is a list element that is
    no dict. *)
Inductive same_frame : value -> value -> Prop :=
| frame_scalar (x : scalar) (w : value) :
    w = VScalar x \/ (exists s, w = VStr s) -> same_frame (VScalar x) w
| frame_dict (items items' : dict) :
    Forall2 (fun kv kv' => fst kv = fst kv' /\ same_frame (snd kv) (snd kv'))
            items items' ->
    same_frame (VDict items) (VDict items')
| frame_list (elems elems' : list value) :
    Forall2 (fun x y => (is_dict x = true /\ same_frame x y) \/
                        (is_dict x = false /\
                         (y = x \/ exists s, y = VStr s)))
            elems elems' ->
    same_frame (VList elems) (VList elems').

(** The keys of the dicts the traversal walks, in the order it meets
    them. *)
Fixpoint walked_keys (v : value) : list str :=
  match v with
  | VScalar _ => []
  | VDict items =>
      flat_map (fun kv => let '(key, x) := kv in key :: walked_keys x) items
  | VList elems =>
      flat_map (fun item =>
                  match item with
                  | VList _ => []
                  | _ => walked_keys item
                  end) elems
  end.

(** How often [c] occurs in [s]. *)
Definition occurrences (c : ascii) (s : str) : nat :=
  length (filter (Ascii.eqb c) s).

(** The last [n] characters of [s] (all of it when it is shorter). *)
Definition last_n (n : nat) (s : str) : str := skipn (length s - n) s.

(** ** The rows of the sample database ([src/data_source.py])

    [init_database] creates the two tables with these columns;
    [query_database] turns each row of [SELECT *] into a dict in column
    order and hands the list to [mask_list]. *)

Definition employees_row
    (id name email department position salary hire_date phone : scalar)
    : dict :=
  [ (lit "id", VScalar id); (lit "name", VScalar name);
    (lit "email", VScalar email); (lit "department", VScalar department);
    (lit "position", VScalar position); (lit "salary", VScalar salary);
    (lit "hire_date", VScalar hire_date); (lit "phone", VScalar phone) ].

Definition projects_row
    (id name description status start_date end_date budget manager_id : scalar)
    : dict :=
  [ (lit "id", VScalar id); (lit "name", VScalar name);
    (lit "description", VScalar description); (lit "status", VScalar status);
    (lit "start_date", VScalar start_date); (lit "end_date", VScalar end_date);
    (lit "budget", VScalar budget); (lit "manager_id", VScalar manager_id) ].

(** ** Prompt templates ([src/prompts.py]) *)

(** [s.replace(old, new)]: every occurrence of [old], scanning from the
    left and not overlapping; for an empty [old], [new] before every
    character and at the end.  [skip] counts the characters of a replaced
    occurrence still to pass over. *)
Fixpoint replace_from (old new : str) (skip : nat) (s : str) : str :=
  match s with
  | [] => []
  | c :: s' =>
      match skip with
      | S k => replace_from old new k s'
      | O =>
          if startswith s old
          then new ++ replace_from old new (length old - 1) s'
          else c :: replace_from old new 0 s'
      end
  end.

Definition replace (old new s : str) : str :=
  match old with
  | [] => new ++ flat_map (fun c => c :: new) s
  | _ :: _ => replace_from old new 0 s
  end.

Module Prompts.

(** A [PromptTemplate] after [__post_init__], which fills [variables]
    from the template when none are given. *)
Record PromptTemplate : Type := {
  name : str;
  description : str;
  template : str;
  variables : list str
}.





(** The body of [PromptTemplate.validate]: only the names of the keyword
    arguments are looked at. *)
Definition validate (self : PromptTemplate) (kwargs : list (str * str))
    : bool * list str :=
  let missing :=
    filter (fun var => negb (existsb (str_eqb var) (map fst kwargs)))
           (variables self) in
  (Nat.eqb (length missing) 0, missing).

(** [PromptLibrary.templates], an insertion-ordered dict. *)
Definition PromptLibrary : Type := list (str * PromptTemplate).

Fixpoint set (templates : PromptLibrary) (key : str) (t : PromptTemplate)
    : PromptLibrary :=
  match templates with
  | [] => [(key, t)]
  | (k, x) :: rest =>
      if str_eqb k key then (k, t) :: rest else (k, x) :: set rest key t
  end.

(** [self.templates[template.name] = template] *)
Definition register (self : PromptLibrary) (t : PromptTemplate)
    : PromptLibrary :=
  set self (name t) t.

(** [self.templates.get(name)] *)
Fixpoint get (self : PromptLibrary) (key : str) : option PromptTemplate :=
  match self with
  | [] => None
  | (k, x) :: rest => if str_eqb k key then Some x else get rest key
  end.

Definition list_templates (self : PromptLibrary)
    : list (str * str * list str) :=
  map (fun kv => let '(_, t) := kv in (name t, description t, variables t))
      self.


End Prompts.

(** * Properties *)

(** ** Strings *)

Lemma str_eqb_eq (a b : str) : str_eqb a b = true <-> a = b.
Proof.
  revert b; induction a as [|x a IH]; intros [|y b]; simpl;
    try (split; [discriminate | congruence]); try tauto.
  rewrite andb_true_iff, Ascii.eqb_eq, IH.
  split; [intros [-> ->]; reflexivity | intros H; inversion H; auto].
Qed.

Lemma str_eqb_refl (a : str) : str_eqb a a = true.
Proof. apply str_eqb_eq; reflexivity. Qed.

Lemma str_eqb_neq (a b : str) : a <> b -> str_eqb a b = false.
Proof.
  intros H; destruct (str_eqb a b) eqn:E; [|reflexivity].
  apply str_eqb_eq in E; contradiction.
Qed.

Lemma startswith_spec (s p : str) :
  startswith s p = true <-> exists rest, s = p ++ rest.
Proof.
  revert s; induction p as [|x p IH]; intros s; simpl.
  - split; [intros _; exists s; reflexivity | reflexivity].
  - destruct s as [|y s].
    + split; [discriminate | intros [rest H]; discriminate].
    + rewrite andb_true_iff, Ascii.eqb_eq, IH. split.
      * intros [-> [rest ->]]; exists rest; reflexivity.
      * intros [rest H]; inversion H; subst; split; [reflexivity|].
        exists rest; reflexivity.
Qed.

(** [sub in s] holds exactly when [s] is [pre ++ sub ++ post]. *)
Lemma contains_spec (sub s : str) :
  contains sub s = true <-> exists pre post, s = pre ++ sub ++ post.
Proof.
  induction s as [|c s IH].
  - simpl. rewrite orb_false_r, startswith_spec. split.
    + intros [rest H]; exists [], rest; exact H.
    + intros [pre [post H]]. destruct pre; [exists post; exact H|discriminate].
  - simpl. rewrite orb_true_iff, startswith_spec, IH. split.
    + intros [[rest H] | [pre [post H]]].
      * exists [], rest; exact H.
      * exists (c :: pre), post; rewrite H; reflexivity.
    + intros [[|c' pre] [post H]].
      * left; exists post; exact H.
      * right; inversion H; subst; exists pre, post; reflexivity.
Qed.

Lemma has_char_spec (c : ascii) (s : str) : has_char c s = true <-> In c s.
Proof.
  unfold has_char. rewrite existsb_exists. split.
  - intros [x [Hin E]]. apply Ascii.eqb_eq in E; subst; exact Hin.
  - intros H; exists c; split; [exact H | apply Ascii.eqb_refl].
Qed.

Lemma has_char_false (c : ascii) (s : str) : ~ In c s -> has_char c s = false.
Proof.
  intros H; destruct (has_char c s) eqn:E; [|reflexivity].
  apply has_char_spec in E; contradiction.
Qed.

Lemma rsplit1_none (sep : ascii) (s : str) :
  ~ In sep s -> rsplit1 sep s = [s].
Proof.
  induction s as [|c s IH]; simpl; intros H; [reflexivity|].
  rewrite IH by tauto.
  destruct (Ascii.eqb c sep) eqn:E; [|reflexivity].
  apply Ascii.eqb_eq in E; subst; tauto.
Qed.

(** [rsplit] cuts at the last separator. *)
Lemma rsplit1_last (sep : ascii) (local domain : str) :
  ~ In sep domain -> rsplit1 sep (local ++ sep :: domain) = [local; domain].
Proof.
  intros H; induction local as [|c local IH]; simpl.
  - rewrite rsplit1_none by exact H. rewrite Ascii.eqb_refl; reflexivity.
  - rewrite IH; reflexivity.
Qed.

(** ** Indices *)

(** Goals on [len] are goals on [length]. *)
Ltac by_length :=
  unfold len in *; cbn [length] in *; rewrite ?length_app in *;
  cbn [length] in *; lia.

Lemma len_nonneg (s : str) : (0 <= len s)%Z.
Proof. by_length. Qed.

Lemma index_first (c : ascii) (s : str) : index (c :: s) 0 = Ok c.
Proof. reflexivity. Qed.

Lemma index_last (s : str) (c : ascii) : index (s ++ [c]) (-1) = Ok c.
Proof.
  unfold index, len. rewrite length_app; simpl.
  replace (Z.of_nat (length s + 1) + -1)%Z with (Z.of_nat (length s)) by lia.
  destruct (Z.of_nat (length s) <? 0)%Z eqn:E; [apply Z.ltb_lt in E; lia|].
  rewrite Nat2Z.id, nth_error_app2 by lia.
  rewrite Nat.sub_diag; reflexivity.
Qed.

(** A string of two or more characters has a first and a last one. *)
Lemma edges (s : str) :
  2 <= length s ->
  exists first mid last, s = first :: mid ++ [last] /\ length mid = length s - 2.
Proof.
  intros H. destruct s as [|first s]; [simpl in H; lia|].
  destruct (exists_last (l := s)) as [mid [last ->]].
  - intros ->; simpl in H; lia.
  - exists first, mid, last; split; [reflexivity|].
    simpl; rewrite length_app; simpl; lia.
Qed.

Lemma keep_edges (first last : ascii) (mid : str) :
  (first' <- index (first :: mid ++ [last]) 0 ;;
   last' <- index (first :: mid ++ [last]) (-1) ;;
   Ok ([first'] ++ stars (len (first :: mid ++ [last]) - 2) ++ [last']))
  = Ok (first :: repeat "*"%char (length mid) ++ [last]).
Proof.
  assert (H0 : index (first :: mid ++ [last]) 0 = Ok first) by reflexivity.
  assert (H1 : index (first :: mid ++ [last]) (-1) = Ok last)
    by apply (index_last (first :: mid) last).
  assert (H2 : stars (len (first :: mid ++ [last]) - 2)
               = repeat "*"%char (length mid)).
  { unfold stars, len. f_equal. cbn [length]. rewrite length_app.
    cbn [length]. lia. }
  rewrite H0, H1, H2. reflexivity.
Qed.

Lemma stars_len (s : str) : stars (len s) = repeat "*"%char (length s).
Proof. unfold stars, len; rewrite Nat2Z.id; reflexivity. Qed.

(** [s[-n:]] is the last [n] characters, or all of [s] when it is shorter. *)
Lemma slice_from_neg (s : str) (n : nat) :
  0 < n ->
  exists front, s = front ++ slice_from s (- Z.of_nat n) /\
                length (slice_from s (- Z.of_nat n)) = Nat.min n (length s).
Proof.
  intros Hn. unfold slice_from.
  destruct (- Z.of_nat n <? 0)%Z eqn:E; [|apply Z.ltb_ge in E; lia].
  exists (firstn (Z.to_nat (Z.max 0 (len s + - Z.of_nat n))) s). split.
  - symmetry; apply firstn_skipn.
  - rewrite length_skipn. unfold len. lia.
Qed.

(** ** The strategies *)

Lemma last_occurrence (c : ascii) (s : str) :
  In c s -> exists a b, s = a ++ c :: b /\ ~ In c b.
Proof.
  induction s as [|x s IH]; intros H; [destruct H|].
  destruct (in_dec ascii_dec c s) as [Hin | Hnot].
  - destruct (IH Hin) as [a [b [-> Hb]]].
    exists (x :: a), b; split; [reflexivity | exact Hb].
  - destruct H as [-> | H]; [|contradiction].
    exists [], s; split; [reflexivity | exact Hnot].
Qed.

Lemma mask_email_no_at (value : str) :
  ~ In "@"%char value -> _mask_email value = Ok value.
Proof.
  intros H. unfold _mask_email. rewrite has_char_false by exact H. reflexivity.
Qed.

Lemma mask_email_at (local domain : str) :
  ~ In "@"%char domain ->
  _mask_email (local ++ "@"%char :: domain) =
  (masked_local <-
     (if (len local >? 2)%Z then
        first <- index local 0 ;;
        last <- index local (-1) ;;
        Ok ([first] ++ stars (len local - 2) ++ [last])
      else Ok (stars (len local))) ;;
   Ok (masked_local ++ "@"%char :: domain)).
Proof.
  intros Hd.
  assert (Hat : has_char "@"%char (local ++ "@"%char :: domain) = true).
  { apply has_char_spec, in_or_app; right; left; reflexivity. }
  unfold _mask_email. rewrite Hat, rsplit1_last by exact Hd. reflexivity.
Qed.

Lemma mask_email_long (first last : ascii) (mid domain : str) :
  ~ In "@"%char domain -> 1 <= length mid ->
  _mask_email ((first :: mid ++ [last]) ++ "@"%char :: domain) =
  Ok ((first :: repeat "*"%char (length mid) ++ [last]) ++ "@"%char :: domain).
Proof.
  intros Hd Hm. rewrite mask_email_at by exact Hd.
  destruct (Z.gtb_spec (len (first :: mid ++ [last])) 2) as [_|G].
  - rewrite keep_edges. reflexivity.
  - by_length.
Qed.

Lemma mask_email_short (local domain : str) :
  ~ In "@"%char domain -> length local <= 2 ->
  _mask_email (local ++ "@"%char :: domain) =
  Ok (repeat "*"%char (length local) ++ "@"%char :: domain).
Proof.
  intros Hd Hl. rewrite mask_email_at by exact Hd.
  destruct (Z.gtb_spec (len local) 2); [by_length|].
  cbn [bind]. rewrite stars_len. reflexivity.
Qed.

Lemma mask_email_total (value : str) : exists r, _mask_email value = Ok r.
Proof.
  destruct (in_dec ascii_dec "@"%char value) as [Hin | Hnot].
  - destruct (last_occurrence _ _ Hin) as [local [domain [-> Hd]]].
    destruct (le_lt_dec (length local) 2) as [Hl | Hl].
    + eexists; apply mask_email_short; assumption.
    + destruct (edges local) as [first [mid [last [-> Hm]]]]; [lia|].
      eexists; apply mask_email_long; [assumption | lia].
  - eexists; apply mask_email_no_at; assumption.
Qed.

Lemma mask_generic_short (value : str) :
  length value <= 2 ->
  _mask_generic value = Ok (repeat "*"%char (length value)).
Proof.
  intros H. unfold _mask_generic.
  destruct (Z.leb_spec (len value) 2); [|by_length].
  rewrite stars_len. reflexivity.
Qed.

Lemma mask_generic_long (first last : ascii) (mid : str) :
  1 <= length mid ->
  _mask_generic (first :: mid ++ [last]) =
  Ok (first :: repeat "*"%char (length mid) ++ [last]).
Proof.
  intros H. unfold _mask_generic.
  destruct (Z.leb_spec (len (first :: mid ++ [last])) 2) as [G|_].
  - by_length.
  - apply keep_edges.
Qed.

Lemma mask_generic_total (value : str) : exists r, _mask_generic value = Ok r.
Proof.
  destruct (le_lt_dec (length value) 2) as [Hl | Hl].
  - eexists; apply mask_generic_short; assumption.
  - destruct (edges value) as [first [mid [last [-> Hm]]]]; [lia|].
    eexists; apply mask_generic_long; lia.
Qed.

Lemma strip_seps_In (value : str) (c : ascii) :
  In c (strip_seps value) <-> In c value /\ is_sep c = false.
Proof.
  unfold strip_seps. rewrite filter_In, negb_true_iff. reflexivity.
Qed.

(** C6.  The Email strategy: without an ["@"] the input comes back as it
    is; otherwise, with [local] the part before the last ["@"] and [domain]
    the part after it, a local part of more than two characters keeps its
    first and last character around [len - 2] stars, a shorter one becomes
    as many stars as it has characters, and the domain is kept. *)
Theorem mask_email_spec (value : str) :
  (~ In "@"%char value -> _mask_email value = Ok value) /\
  (forall local domain : str,
     value = local ++ "@"%char :: domain -> ~ In "@"%char domain ->
     (2 < length local ->
      exists first mid last,
        local = first :: mid ++ [last] /\ length mid = length local - 2 /\
        _mask_email value =
        Ok ((first :: repeat "*"%char (length mid) ++ [last]) ++
            "@"%char :: domain)) /\
     (length local <= 2 ->
      _mask_email value =
      Ok (repeat "*"%char (length local) ++ "@"%char :: domain))).
Proof.
  split; [apply mask_email_no_at|].
  intros local domain -> Hd. split.
  - intros Hl.
    destruct (edges local) as [first [mid [last [E Hm]]]]; [lia|].
    exists first, mid, last. split; [exact E|]. split; [exact Hm|].
    rewrite E. apply mask_email_long; [exact Hd | lia].
  - apply mask_email_short; exact Hd.
Qed.

(** The scenario of the specification: ["zhang@company.com"]. *)
Lemma mask_email_spec_witness :
  _mask_email "zhang@company.com" = Ok (lit "z***g@company.com").
Proof.
  destruct (mask_email_spec "zhang@company.com") as [_ H].
  destruct (H (lit "zhang") (lit "company.com")) as [H1 _].
  - reflexivity.
  - vm_compute. intuition discriminate.
  - destruct H1 as [first [mid [last [E [Hm R]]]]]; [vm_compute; lia|].
    destruct mid as [|a [|b [|c [|d mid]]]]; try discriminate Hm.
    inversion E; subst. exact R.
Defined.

(** C7 (amended).  The SSN strategy: the fixed text ["***-**-"] and then
    the tail of the input with ["-"] and whitespace deleted: its last four
    characters, or all of them when there are fewer than four, whatever
    characters they are. *)
Theorem mask_ssn_spec :
  (forall value : str,
     exists tail : str,
       _mask_ssn value = Ok (lit "***-**-" ++ tail) /\
       (exists front, strip_seps value = front ++ tail) /\
       length tail = Nat.min 4 (length (strip_seps value)) /\
       (forall c, In c (strip_seps value) <->
                  In c value /\ c <> "-"%char /\ isspace c = false)) /\
  _mask_ssn "123-45-6789" = Ok (lit "***-**-6789").
Proof.
  split; [|reflexivity].
  intros value.
  destruct (slice_from_neg (strip_seps value) 4) as [front [E L]]; [lia|].
  exists (slice_from (strip_seps value) (-4)).
  split; [reflexivity|]. split; [exists front; exact E|]. split; [exact L|].
  intros c. rewrite strip_seps_In. unfold is_sep.
  rewrite orb_false_iff. split.
  - intros [H1 [H2 H3]]. repeat split; try assumption.
    intros ->. rewrite Ascii.eqb_refl in H2. discriminate.
  - intros [H1 [H2 H3]]. repeat split; try assumption.
    destruct (Ascii.eqb c "-") eqn:E'; [|reflexivity].
    apply Ascii.eqb_eq in E'. contradiction.
Qed.

(** C7 as stated fails: with fewer than four characters left the output is
    shorter than the fixed shape, and the tail is whatever the input ends
    in, digits or not. *)
Lemma short_ssn_is_not_fixed_shape :
  _mask_ssn "12" = Ok (lit "***-**-12") /\
  (forall out, _mask_ssn "12" = Ok out -> length out <> 11) /\
  _mask_ssn "no digits" = Ok (lit "***-**-gits").
Proof.
  split; [reflexivity|]. split; [|reflexivity].
  intros out H. inversion H. discriminate.
Qed.

(** C8.  The Generic strategy: a string of at most two characters becomes
    as many stars; a longer one keeps its first and last character and has
    a star for every character between them. *)
Theorem mask_generic_spec (value : str) :
  (length value <= 2 ->
   _mask_generic value = Ok (repeat "*"%char (length value))) /\
  (3 <= length value ->
   exists first mid last,
     value = first :: mid ++ [last] /\ length mid = length value - 2 /\
     _mask_generic value = Ok (first :: repeat "*"%char (length mid) ++ [last])).
Proof.
  split; [apply mask_generic_short|].
  intros H. destruct (edges value) as [first [mid [last [E Hm]]]]; [lia|].
  exists first, mid, last. split; [exact E|]. split; [exact Hm|].
  rewrite E. apply mask_generic_long. lia.
Qed.

Lemma mask_generic_spec_witness :
  _mask_generic "ab" = Ok (lit "**") /\
  _mask_generic "Wang" = Ok (lit "W**g").
Proof.
  split.
  - destruct (mask_generic_spec "ab") as [H _]. apply H. vm_compute; lia.
  - destruct (mask_generic_spec "Wang") as [_ H].
    destruct H as [first [mid [last [E [Hm R]]]]]; [vm_compute; lia|].
    destruct mid as [|a [|b [|c mid]]]; try discriminate Hm.
    inversion E; subst. exact R.
Defined.

(** ** Content patterns *)

Section Rep.

Variable c : ascii -> bool.
Variable k : str -> bool.
Variable K : str -> Prop.
Hypothesis HK : forall s, k s = true <-> K s.

(** One atom: [rep] finds a run within the bounds that the continuation
    accepts the rest after, whenever there is one. *)
Lemma rep_spec (s : str) :
  forall (lo : nat) (hi : option nat),
    rep c lo hi k s = true <->
    exists w rest, s = w ++ rest /\ Forall (fun x => c x = true) w /\
                   lo <= length w /\ within hi (length w) /\ K rest.
Proof.
  induction s as [|x s IH]; intros lo hi.
  - destruct lo as [|lo].
    + assert (E : rep c 0 hi k [] = k []) by (destruct hi as [[|h]|]; reflexivity).
      rewrite E, HK. split.
      * intros H. exists [], []. repeat split; auto.
        destruct hi; simpl; lia.
      * intros [w [rest [E' [_ [_ [_ H]]]]]].
        symmetry in E'. apply app_eq_nil in E'. destruct E' as [_ ->]. exact H.
    + assert (E : rep c (S lo) hi k [] = false) by (destruct hi as [[|h]|]; reflexivity).
      rewrite E. split; [discriminate|].
      intros [w [rest [E' [_ [L _]]]]].
      symmetry in E'. apply app_eq_nil in E'. destruct E' as [-> _].
      simpl in L. lia.
  - destruct lo as [|lo]; destruct hi as [[|h]|]; cbn [rep hi_pred].
    + rewrite HK. split.
      * intros H. exists [], (x :: s). repeat split; simpl; auto.
      * intros [w [rest [E [_ [_ [B H]]]]]]. simpl in B.
        destruct w; [simpl in E; subst; exact H | simpl in B; lia].
    + rewrite orb_true_iff, andb_true_iff, IH, HK. split.
      * intros [[Hx [w [rest [-> [F [L [B H]]]]]]] | H].
        -- exists (x :: w), rest. repeat split; simpl in *; auto; lia.
        -- exists [], (x :: s). repeat split; simpl; auto; lia.
      * intros [[|y w] [rest [E [F [L [B H]]]]]].
        -- right. simpl in E; subst; exact H.
        -- left. inversion E; subst. inversion F; subst. split; [assumption|].
           exists w, rest. repeat split; simpl in *; auto; lia.
    + rewrite orb_true_iff, andb_true_iff, IH, HK. split.
      * intros [[Hx [w [rest [-> [F [L [B H]]]]]]] | H].
        -- exists (x :: w), rest. repeat split; simpl in *; auto; lia.
        -- exists [], (x :: s). repeat split; simpl; auto; lia.
      * intros [[|y w] [rest [E [F [L [B H]]]]]].
        -- right. simpl in E; subst; exact H.
        -- left. inversion E; subst. inversion F; subst. split; [assumption|].
           exists w, rest. repeat split; simpl in *; auto; lia.
    + split; [discriminate|].
      intros [w [rest [_ [_ [L [B _]]]]]]. simpl in B. lia.
    + rewrite andb_true_iff, IH. split.
      * intros [Hx [w [rest [-> [F [L [B H]]]]]]].
        exists (x :: w), rest. repeat split; simpl in *; auto; lia.
      * intros [[|y w] [rest [E [F [L [B H]]]]]]; [simpl in L; lia|].
        inversion E; subst. inversion F; subst. split; [assumption|].
        exists w, rest. repeat split; simpl in *; auto; lia.
    + rewrite andb_true_iff, IH. split.
      * intros [Hx [w [rest [-> [F [L [B H]]]]]]].
        exists (x :: w), rest. repeat split; simpl in *; auto; lia.
      * intros [[|y w] [rest [E [F [L [B H]]]]]]; [simpl in L; lia|].
        inversion E; subst. inversion F; subst. split; [assumption|].
        exists w, rest. repeat split; simpl in *; auto; lia.
Qed.

End Rep.

(** [re_match] decides the prefix match. *)
Lemma re_match_spec (p : pattern) (s : str) :
  re_match p s = true <-> prefix_matches p s.
Proof.
  revert s; induction p as [|a p IH]; intros s.
  - simpl. split; [|reflexivity].
    intros _. exists [], s. split; [reflexivity | constructor].
  - cbn [re_match]. rewrite (rep_spec (cls a) (re_match p) (prefix_matches p) IH s).
    split.
    + intros [w1 [rest1 [-> [F [L [B [w2 [rest [-> M]]]]]]]]].
      exists (w1 ++ w2), rest. split; [apply app_assoc|].
      constructor; [repeat split; assumption | exact M].
    + intros [w [rest [-> M]]]. inversion M as [|a' p' w1 w2 [F [L B]] M']; subst.
      exists w1, (w2 ++ rest). split; [symmetry; apply app_assoc|].
      repeat split; try assumption. exists w2, rest. split; [reflexivity | exact M'].
Qed.

Lemma rule_appliesb_spec (field_name text : str) (r : rule) :
  rule_appliesb field_name text r = true <-> rule_applies field_name text r.
Proof.
  unfold rule_appliesb, rule_applies, substring.
  rewrite andb_true_iff, contains_spec, re_match_spec. reflexivity.
Qed.

(** ** Strategy selection in [mask_value] *)

Lemma try_patterns_find (ps : list rule) (field_name text : str) :
  try_patterns ps (lower field_name) text =
  option_map (fun r => rule_strategy r text)
             (find (rule_appliesb field_name text) ps).
Proof.
  induction ps as [|[name [pat f]] ps IH]; [reflexivity|].
  cbn [try_patterns find]. unfold rule_appliesb at 1.
  cbn [rule_name rule_pattern fst snd].
  destruct (contains name (lower field_name)); cbn [andb]; [|exact IH].
  destruct (re_match pat text); [reflexivity | exact IH].
Qed.

(** [find] returns the first element that passes the test. *)
Lemma find_first {A : Type} (f : A -> bool) (l : list A) (x : A) :
  find f l = Some x ->
  exists before after,
    l = before ++ x :: after /\ f x = true /\
    Forall (fun y => f y = false) before.
Proof.
  induction l as [|a l IH]; [discriminate|]. cbn [find].
  destruct (f a) eqn:E.
  - intros H; inversion H; subst.
    exists [], l. repeat split; [exact E | constructor].
  - intros H. destruct (IH H) as [before [after [-> [Hx Hb]]]].
    exists (a :: before), after. repeat split; [exact Hx|].
    constructor; assumption.
Qed.

Lemma find_none {A : Type} (f : A -> bool) (l : list A) :
  find f l = None -> Forall (fun y => f y = false) l.
Proof.
  induction l as [|a l IH]; [constructor|]. cbn [find].
  destruct (f a) eqn:E; [discriminate|].
  intros H; constructor; [exact E | exact (IH H)].
Qed.

Lemma not_applies (field_name text : str) (r : rule) :
  rule_appliesb field_name text r = false -> ~ rule_applies field_name text r.
Proof.
  intros E H. apply rule_appliesb_spec in H. congruence.
Qed.

Lemma should_mask_spec (self : DataMasker) (field_name : str) :
  should_mask self (lower field_name) = true <-> sensitive self field_name.
Proof.
  unfold should_mask, sensitive. rewrite existsb_exists.
  split; intros [m [Hin H]]; exists m; (split; [exact Hin|]);
    apply contains_spec; exact H.
Qed.

Lemma is_None_false (v : value) : v <> VScalar SNone -> is_None v = false.
Proof.
  destruct v as [[| | | |]| |]; try reflexivity. intros H; contradiction H; reflexivity.
Qed.

Lemma mask_phone_total (value : str) : exists r, _mask_phone value = Ok r.
Proof.
  unfold _mask_phone. destruct (len (strip_seps value) >=? 4)%Z; eexists; reflexivity.
Qed.

Lemma mask_credit_card_total (value : str) :
  exists r, _mask_credit_card value = Ok r.
Proof.
  unfold _mask_credit_card.
  destruct (len (strip_seps value) >=? 4)%Z; eexists; reflexivity.
Qed.

Lemma mask_ssn_total (value : str) : exists r, _mask_ssn value = Ok r.
Proof. eexists; reflexivity. Qed.

Create HintDb total discriminated.

#[local] Hint Resolve mask_email_total mask_phone_total
  mask_credit_card_total mask_ssn_total mask_generic_total : total.

Lemma patterns_total (r : rule) (text : str) :
  In r patterns -> exists masked, rule_strategy r text = Ok masked.
Proof.
  intros [<- | [<- | [<- | [<- | []]]]]; cbn [rule_strategy snd];
    auto with total.
Qed.

Lemma selected_total (field_name text : str) :
  exists masked, selected field_name text text = Ok masked.
Proof.
  unfold selected.
  destruct (find (rule_appliesb field_name text) patterns) as [r|] eqn:E.
  - apply patterns_total. destruct (find_first _ _ _ E) as [b [a [-> _]]].
    apply in_or_app; right; left; reflexivity.
  - auto with total.
Qed.

Lemma mask_value_masked (self : DataMasker) (field_name : str) (v : value) :
  enabled self = true -> should_mask self (lower field_name) = true ->
  is_None v = false ->
  mask_value self field_name v =
  (masked <- selected field_name (py_str v) (py_str v) ;; Ok (VStr masked)).
Proof.
  intros He Hs Hn. unfold mask_value, selected.
  rewrite He, Hn, Hs. cbn [negb orb].
  rewrite try_patterns_find.
  destruct (find (rule_appliesb field_name (py_str v)) patterns); reflexivity.
Qed.

Lemma mask_value_unmasked (self : DataMasker) (field_name : str) (v : value) :
  masks self field_name = false -> mask_value self field_name v = Ok v.
Proof.
  unfold masks, mask_value. intros H.
  destruct (enabled self); [|reflexivity].
  cbn [andb] in H. rewrite H. cbn [negb orb].
  destruct (is_None v); reflexivity.
Qed.

Lemma mask_value_None (self : DataMasker) (field_name : str) :
  mask_value self field_name (VScalar SNone) = Ok (VScalar SNone).
Proof.
  unfold mask_value. cbn [is_None]. rewrite orb_true_r. reflexivity.
Qed.

Lemma mask_value_total (self : DataMasker) (field_name : str) (v : value) :
  exists r, mask_value self field_name v = Ok r.
Proof.
  destruct (masks self field_name) eqn:M.
  - destruct (is_None v) eqn:N.
    + destruct v as [[| | | |]| |]; try discriminate N.
      eexists; apply mask_value_None.
    + unfold masks in M. apply andb_true_iff in M. destruct M as [He Hs].
      rewrite mask_value_masked by assumption.
      destruct (selected_total field_name (py_str v)) as [m ->].
      eexists; reflexivity.
  - eexists; apply mask_value_unmasked; exact M.
Qed.

Lemma mask_value_leaf (self : DataMasker) (field_name : str) (v : value) :
  mask_value self field_name v = Ok (leaf self field_name v).
Proof.
  unfold leaf. destruct (mask_value_total self field_name v) as [r ->].
  reflexivity.
Qed.

(** What [mask_value] returns is its argument or a string. *)
Lemma leaf_cases (self : DataMasker) (field_name : str) (v : value) :
  leaf self field_name v = v \/
  (masks self field_name = true /\ exists s, leaf self field_name v = VStr s).
Proof.
  unfold leaf. destruct (masks self field_name) eqn:M.
  - destruct (is_None v) eqn:N.
    + destruct v as [[| | | |]| |]; try discriminate N.
      rewrite mask_value_None. left; reflexivity.
    + unfold masks in M. apply andb_true_iff in M. destruct M as [He Hs].
      rewrite mask_value_masked by assumption.
      destruct (selected_total field_name (py_str v)) as [m ->].
      right. split; [reflexivity|]. exists m; reflexivity.
  - rewrite mask_value_unmasked by exact M. left; reflexivity.
Qed.

(** C2.  For a field the policy marks sensitive and any value but [None]:
    the strategy applied is that of the first rule, in the order of the
    table, whose name occurs in the lowercased field name and whose pattern
    matches a prefix of the value's text; with no such rule it is the
    Generic strategy.  A strategy is always found and its result, a string,
    is what [mask_value] returns. *)
Theorem strategy_selection (self : DataMasker) (field_name : str) (v : value) :
  enabled self = true -> sensitive self field_name -> v <> VScalar SNone ->
  exists (strategy : str -> result str) (masked : str),
    strategy (py_str v) = Ok masked /\
    mask_value self field_name v = Ok (VStr masked) /\
    ((exists before name pat after,
        patterns = before ++ (name, (pat, strategy)) :: after /\
        substring name (lower field_name) /\
        prefix_matches pat (py_str v) /\
        Forall (fun r => ~ rule_applies field_name (py_str v) r) before)
     \/
     (Forall (fun r => ~ rule_applies field_name (py_str v) r) patterns /\
      strategy = _mask_generic)).
Proof.
  intros He Hs Hn.
  apply should_mask_spec in Hs. apply is_None_false in Hn.
  exists (selected field_name (py_str v)).
  destruct (selected_total field_name (py_str v)) as [m Hm].
  exists m. split; [exact Hm|]. split.
  - rewrite mask_value_masked by assumption. rewrite Hm. reflexivity.
  - unfold selected.
    destruct (find (rule_appliesb field_name (py_str v)) patterns)
      as [[name [pat f]]|] eqn:E.
    + left. destruct (find_first _ _ _ E) as [before [after [Hp [Hr Hb]]]].
      exists before, name, pat, after.
      apply rule_appliesb_spec in Hr. destruct Hr as [H1 H2].
      repeat split; try assumption.
      eapply Forall_impl; [|exact Hb]. intros r; apply not_applies.
    + right. split; [|reflexivity].
      eapply Forall_impl; [|exact (find_none _ _ E)].
      intros r; apply not_applies.
Qed.

(** A field named by the email rule whose value is no address falls to the
    Generic strategy. *)
Lemma strategy_selection_witness :
  exists (strategy : str -> result str) (masked : str),
    strategy (lit "not an address") = Ok masked /\
    mask_value data_masker "contact_email" (VStr "not an address")
    = Ok (VStr masked) /\
    ((exists before name pat after,
        patterns = before ++ (name, (pat, strategy)) :: after /\
        substring name (lower "contact_email") /\
        prefix_matches pat (lit "not an address") /\
        Forall (fun r => ~ rule_applies "contact_email" (lit "not an address") r)
               before)
     \/
     (Forall (fun r => ~ rule_applies "contact_email" (lit "not an address") r)
             patterns /\
      strategy = _mask_generic)).
Proof.
  apply (strategy_selection data_masker "contact_email" (VStr "not an address")).
  - reflexivity.
  - apply should_mask_spec. vm_compute. reflexivity.
  - discriminate.
Defined.

(** ** The traversal *)

Lemma value_ind' (P : value -> Prop)
    (Hs : forall x, P (VScalar x))
    (Hd : forall items, Forall (fun kv => P (snd kv)) items -> P (VDict items))
    (Hl : forall elems, Forall P elems -> P (VList elems)) :
  forall v, P v.
Proof.
  fix IH 1. intros [x | items | elems].
  - apply Hs.
  - apply Hd. revert items. fix IHi 1.
    intros [|[k x] items]; constructor; [apply IH | apply IHi].
  - apply Hl. revert elems. fix IHe 1.
    intros [|x elems]; constructor; [apply IH | apply IHe].
Qed.

Lemma distinct_NoDup (keys : list str) : distinct keys = true -> NoDup keys.
Proof.
  induction keys as [|k keys IH]; intros H; [constructor|].
  cbn [distinct] in H. apply andb_true_iff in H. destruct H as [H1 H2].
  constructor; [|exact (IH H2)].
  intros Hin. apply negb_true_iff in H1.
  assert (E : existsb (str_eqb k) keys = true).
  { apply existsb_exists. exists k. split; [exact Hin | apply str_eqb_refl]. }
  congruence.
Qed.

Lemma dict_set_fresh (d : dict) (key : str) (v : value) :
  ~ In key (map fst d) -> dict_set d key v = d ++ [(key, v)].
Proof.
  induction d as [|[k x] d IH]; intros H; [reflexivity|].
  cbn [dict_set]. cbn [map fst In] in H.
  rewrite str_eqb_neq by tauto. rewrite IH by tauto. reflexivity.
Qed.

Lemma fold_store_pure (F : str -> value -> result value)
    (G : str -> value -> value) (items acc : dict) :
  (forall k v, In (k, v) items -> F k v = Ok (G k v)) ->
  NoDup (map fst acc ++ map fst items) ->
  fold_left (store F) items (Ok acc) =
  Ok (acc ++ map (fun kv => let '(k, v) := kv in (k, G k v)) items).
Proof.
  revert acc. induction items as [|[k v] items IH]; intros acc HF Hnd.
  - cbn. rewrite app_nil_r. reflexivity.
  - cbn [fold_left]. unfold store at 2. cbn [bind].
    rewrite (HF k v) by (left; reflexivity). cbn [bind].
    cbn [map fst] in Hnd.
    rewrite dict_set_fresh.
    + rewrite IH.
      * rewrite <- app_assoc. reflexivity.
      * intros k' v' Hin. apply HF. right; exact Hin.
      * rewrite map_app. cbn [map fst]. rewrite <- app_assoc. exact Hnd.
    + apply NoDup_remove_2 in Hnd. intros Hin. apply Hnd.
      apply in_or_app. left; exact Hin.
Qed.

Lemma fold_store_total (F : str -> value -> result value) (items acc : dict) :
  (forall k v, In (k, v) items -> exists r, F k v = Ok r) ->
  exists d, fold_left (store F) items (Ok acc) = Ok d.
Proof.
  revert acc. induction items as [|[k v] items IH]; intros acc HF.
  - exists acc. reflexivity.
  - cbn [fold_left]. unfold store at 2. cbn [bind].
    destruct (HF k v) as [r ->]; [left; reflexivity|]. cbn [bind].
    apply IH. intros k' v' Hin. apply HF. right; exact Hin.
Qed.

Lemma map_m_pure {A B : Type} (f : A -> result B) (g : A -> B) (l : list A) :
  (forall a, In a l -> f a = Ok (g a)) -> map_m f l = Ok (map g l).
Proof.
  induction l as [|a l IH]; intros H; [reflexivity|].
  cbn [map_m map]. rewrite H by (left; reflexivity). cbn [bind].
  rewrite IH by (intros b Hb; apply H; right; exact Hb). reflexivity.
Qed.

Lemma map_m_total {A B : Type} (f : A -> result B) (l : list A) :
  (forall a, In a l -> exists b, f a = Ok b) -> exists bs, map_m f l = Ok bs.
Proof.
  induction l as [|a l IH]; intros H; [exists []; reflexivity|].
  cbn [map_m]. destruct (H a) as [b ->]; [left; reflexivity|]. cbn [bind].
  destruct IH as [bs ->]; [intros c Hc; apply H; right; exact Hc|].
  eexists; reflexivity.
Qed.

Lemma Forall2_map_r {A B : Type} (R : A -> B -> Prop) (f : A -> B) (l : list A) :
  (forall a, In a l -> R a (f a)) -> Forall2 R l (map f l).
Proof.
  induction l as [|a l IH]; intros H; [constructor|].
  cbn [map]. constructor; [apply H; left; reflexivity|].
  apply IH. intros b Hb. apply H. right; exact Hb.
Qed.

Lemma same_shape_refl (v : value) : same_shape v v.
Proof.
  induction v as [x | items IH | elems IH] using value_ind'.
  - constructor. left; reflexivity.
  - constructor. rewrite <- (map_id items) at 2. apply Forall2_map_r.
    intros kv Hin. rewrite Forall_forall in IH. split; [reflexivity|].
    exact (IH kv Hin).
  - constructor. rewrite <- (map_id elems) at 2. apply Forall2_map_r.
    intros x Hin. rewrite Forall_forall in IH. exact (IH x Hin).
Qed.

Section Traversal.

Variable self : DataMasker.

Lemma mask_dict_rec_fold (items : dict) :
  mask_dict_rec self (VDict items) =
  fold_left (store (mask_field self)) items (Ok []).
Proof. reflexivity. Qed.

Lemma mask_pure_dict (items : dict) :
  mask_pure self (VDict items) = VDict (pure_items self items).
Proof. reflexivity. Qed.

Lemma mask_field_with_list (key : str) (elems : list value) :
  mask_field_with (mask_pure self) self key (VList elems) =
  VList (map (pure_elem self key) elems).
Proof. reflexivity. Qed.

(** On a well-formed value the monadic traversal returns what the plain
    one computes. *)
Lemma mask_field_pure (v : value) :
  well_formed v = true ->
  forall key, mask_field self key v =
              Ok (mask_field_with (mask_pure self) self key v).
Proof.
  induction v as [x | items IH | elems IH] using value_ind'; intros Hwf key.
  - apply mask_value_leaf.
  - cbn [well_formed] in Hwf. apply andb_true_iff in Hwf.
    destruct Hwf as [Hd Hall].
    cbn [mask_field mask_field_with]. rewrite mask_dict_rec_fold.
    rewrite (fold_store_pure (mask_field self)
               (mask_field_with (mask_pure self) self)).
    + reflexivity.
    + intros k x Hin. rewrite Forall_forall in IH.
      apply (IH (k, x) Hin).
      rewrite forallb_forall in Hall. exact (Hall (k, x) Hin).
    + cbn [map app]. apply distinct_NoDup. exact Hd.
  - cbn [well_formed] in Hwf. rewrite forallb_forall in Hwf.
    rewrite mask_field_with_list. cbn [mask_field].
    rewrite (map_m_pure _ (pure_elem self key)); [reflexivity|].
    intros item Hin. rewrite Forall_forall in IH.
    specialize (IH item Hin (Hwf item Hin) key).
    destruct item as [x | d | l]; [apply mask_value_leaf | exact IH |
                                    apply mask_value_leaf].
Qed.

(** The traversal returns on every value, well formed or not. *)
Lemma mask_field_total (v : value) :
  forall key, exists r, mask_field self key v = Ok r.
Proof.
  induction v as [x | items IH | elems IH] using value_ind'; intros key.
  - apply mask_value_total.
  - cbn [mask_field]. rewrite mask_dict_rec_fold.
    destruct (fold_store_total (mask_field self) items []) as [d ->].
    + intros k x Hin. rewrite Forall_forall in IH. apply (IH (k, x) Hin).
    + eexists; reflexivity.
  - cbn [mask_field].
    match goal with |- context [map_m ?f elems] =>
      destruct (map_m_total f elems) as [l ->] end.
    + intros item Hin. rewrite Forall_forall in IH.
      specialize (IH item Hin key).
      destruct item as [x | d | l]; [apply mask_value_total | exact IH |
                                      apply mask_value_total].
    + eexists; reflexivity.
Qed.

Lemma mask_dict_total (data : dict) :
  exists out, mask_dict self data = Ok out.
Proof.
  destruct (mask_field_total (VDict data) []) as [r H].
  cbn [mask_field] in H. unfold mask_dict.
  destruct (mask_dict_rec self (VDict data)) as [d | e]; [|discriminate H].
  exists d; reflexivity.
Qed.

Lemma mask_dict_pure (data : dict) :
  well_formed (VDict data) = true ->
  mask_dict self data = Ok (pure_items self data).
Proof.
  intros Hwf. pose proof (mask_field_pure (VDict data) Hwf []) as H.
  cbn [mask_field mask_field_with] in H. rewrite mask_pure_dict in H.
  unfold mask_dict.
  destruct (mask_dict_rec self (VDict data)) as [d | e]; [|discriminate H].
  cbn [bind] in H. inversion H; reflexivity.
Qed.

Lemma leaf_unmasked (key : str) (v : value) :
  masks self key = false -> leaf self key v = v.
Proof.
  intros H. unfold leaf. rewrite mask_value_unmasked by exact H. reflexivity.
Qed.

Lemma nested_lists_unmasked_dict (items : dict) :
  nested_lists_unmasked self (VDict items) =
  forallb (fun kv => let '(key, x) := kv in field_ok self key x) items.
Proof. reflexivity. Qed.

Lemma leaf_shape (key : str) (x : scalar) :
  same_shape (VScalar x) (leaf self key (VScalar x)).
Proof.
  destruct (leaf_cases self key (VScalar x)) as [-> | [_ [s ->]]].
  - apply same_shape_refl.
  - constructor. right. exists s; reflexivity.
Qed.

(** Shape is kept field by field. *)
Lemma field_shape (v : value) :
  forall key, field_ok self key v = true ->
              same_shape v (mask_field_with (mask_pure self) self key v).
Proof.
  induction v as [x | items IH | elems IH] using value_ind'; intros key Hok.
  - apply leaf_shape.
  - cbn [mask_field_with]. rewrite mask_pure_dict. constructor.
    apply Forall2_map_r. intros [k x] Hin. cbn [fst snd]. split; [reflexivity|].
    rewrite Forall_forall in IH. apply (IH (k, x) Hin).
    cbn [field_ok] in Hok. rewrite nested_lists_unmasked_dict in Hok.
    rewrite forallb_forall in Hok. exact (Hok (k, x) Hin).
  - rewrite mask_field_with_list. constructor.
    apply Forall2_map_r. intros item Hin.
    cbn [field_ok] in Hok. rewrite forallb_forall in Hok.
    specialize (Hok item Hin). rewrite Forall_forall in IH.
    specialize (IH item Hin key).
    destruct item as [x | d | l].
    + apply leaf_shape.
    + apply IH. exact Hok.
    + cbn [pure_elem]. cbn [elem_ok] in Hok. apply negb_true_iff in Hok.
      rewrite leaf_unmasked by exact Hok. apply same_shape_refl.
Qed.

(** Where nothing is masked the traversal rebuilds its input. *)
Lemma field_identity :
  (forall k, masks self k = false) ->
  forall v key, mask_field_with (mask_pure self) self key v = v.
Proof.
  intros H v.
  induction v as [x | items IH | elems IH] using value_ind'; intros key.
  - apply leaf_unmasked, H.
  - cbn [mask_field_with]. rewrite mask_pure_dict. f_equal.
    unfold pure_items. rewrite <- (map_id items) at 2. apply map_ext_in.
    intros [k x] Hin. rewrite Forall_forall in IH.
    rewrite (IH (k, x) Hin). reflexivity.
  - rewrite mask_field_with_list. f_equal.
    rewrite <- (map_id elems) at 2. apply map_ext_in.
    intros item Hin. rewrite Forall_forall in IH.
    specialize (IH item Hin key).
    destruct item as [x | d | l]; [apply leaf_unmasked, H | exact IH |
                                    apply leaf_unmasked, H].
Qed.

End Traversal.

(** C4.  With masking disabled [mask_dict] returns its input: every
    well-formed record comes back equal to itself. *)
Theorem disabled_is_identity (self : DataMasker) (data : dict) :
  enabled self = false ->
  well_formed (VDict data) = true ->
  mask_dict self data = Ok data.
Proof.
  intros He Hwf. rewrite mask_dict_pure by exact Hwf. f_equal.
  assert (H : mask_pure self (VDict data) = VDict data).
  { apply (field_identity self) with (key := []) (v := VDict data).
    intros k. unfold masks. rewrite He. reflexivity. }
  rewrite mask_pure_dict in H. inversion H as [H']. rewrite H'. exact H'.
Qed.

Lemma disabled_is_identity_witness :
  mask_dict disabled_masker team_record = Ok team_record.
Proof.
  apply (disabled_is_identity disabled_masker team_record); reflexivity.
Defined.

(** ** Places: what lies under a field that is not masked *)

Lemma lookup_pure_items (self : DataMasker) (key : str) (d : dict) :
  lookup key (pure_items self d) =
  option_map (mask_field_with (mask_pure self) self key) (lookup key d).
Proof.
  induction d as [|[k x] d IH]; [reflexivity|].
  cbn [pure_items map lookup]. destruct (str_eqb k key) eqn:E.
  - apply str_eqb_eq in E. subst. reflexivity.
  - exact IH.
Qed.

Lemma governing_of_dict (rest : list step) (d : dict) (x : scalar) :
  get rest (VDict d) = Some (VScalar x) ->
  exists k, governing rest = Some k.
Proof.
  destruct rest as [|[k|i] rest]; cbn [get governing]; try discriminate.
  intros _. destruct (governing rest) as [k'|]; eexists; reflexivity.
Qed.

Lemma governing_field (key : str) (rest : list step) (k k' : str) :
  governing (Field key :: rest) = Some k -> governing rest = Some k' -> k' = k.
Proof. cbn [governing]. intros H E. rewrite E in H. congruence. Qed.

Lemma get_unmasked (self : DataMasker) (k : str) (x : scalar) :
  masks self k = false ->
  forall (n : nat) (path : list step) (d : dict),
    length path <= n -> walked path = true -> governing path = Some k ->
    get path (VDict d) = Some (VScalar x) ->
    get path (VDict (pure_items self d)) = Some (VScalar x).
Proof.
  intros Hk. induction n as [|n IHn]; intros path d Hlen Hw Hg Hget.
  - destruct path; [discriminate Hget | cbn [length] in Hlen; lia].
  - destruct path as [|[key|i] rest]; try discriminate Hget.
    cbn [get] in Hget |- *. rewrite lookup_pure_items.
    destruct (lookup key d) as [y|]; [|discriminate Hget]. cbn [option_map].
    cbn [length] in Hlen.
    destruct y as [z | d' | l].
    + destruct rest as [|[?|?] ?]; try discriminate Hget.
      cbn [get] in Hget. inversion Hget; subst.
      cbn [governing] in Hg. inversion Hg; subst.
      cbn [mask_field_with get]. rewrite leaf_unmasked by exact Hk. reflexivity.
    + cbn [mask_field_with]. rewrite mask_pure_dict.
      destruct (governing_of_dict _ _ _ Hget) as [k' G].
      apply IHn; [lia | exact Hw | | exact Hget].
      rewrite G. f_equal. exact (governing_field _ _ _ _ Hg G).
    + rewrite mask_field_with_list.
      destruct rest as [|[?|i] rest']; try discriminate Hget.
      cbn [get] in Hget |- *. rewrite nth_error_map.
      destruct (nth_error l i) as [item|]; [|discriminate Hget].
      cbn [option_map]. cbn [length] in Hlen.
      destruct item as [z | d'' | l'].
      * destruct rest' as [|[?|?] ?]; try discriminate Hget.
        cbn [get] in Hget. inversion Hget; subst.
        cbn [governing] in Hg. inversion Hg; subst.
        cbn [pure_elem get]. rewrite leaf_unmasked by exact Hk. reflexivity.
      * cbn [pure_elem]. rewrite mask_pure_dict.
        destruct (governing_of_dict _ _ _ Hget) as [k' G].
        destruct rest' as [|[k3|?] r]; try discriminate Hget.
        apply IHn; [cbn [length] in *; lia | exact Hw | | exact Hget].
        rewrite G. f_equal.
        apply (governing_field key (Item i :: Field k3 :: r)); [exact Hg|].
        exact G.
      * destruct rest' as [|[?|?] ?]; try discriminate Hget.
        discriminate Hw.
Qed.

Lemma governing_of_field (key : str) (rest : list step) :
  exists k, governing (Field key :: rest) = Some k.
Proof.
  cbn [governing]. destruct (governing rest) as [k'|]; eexists; reflexivity.
Qed.

(** A list that is an element of a list the traversal walks is handed to
    [mask_value] under the key of the outer list. *)
Lemma get_list_elem (self : DataMasker) (k : str) (inner : list value) :
  forall (n : nat) (path : list step) (d : dict),
    length path <= n -> walked path = true -> ends_in_item path = true ->
    governing path = Some k ->
    get path (VDict d) = Some (VList inner) ->
    get path (VDict (pure_items self d)) = Some (leaf self k (VList inner)).
Proof.
  induction n as [|n IHn]; intros path d Hlen Hw He Hg Hget.
  - destruct path; [discriminate Hget | cbn [length] in Hlen; lia].
  - destruct path as [|[key|i] rest]; try discriminate Hget.
    cbn [get] in Hget |- *. rewrite lookup_pure_items.
    destruct (lookup key d) as [y|]; [|discriminate Hget]. cbn [option_map].
    cbn [length] in Hlen.
    destruct y as [z | d' | l].
    + destruct rest as [|[?|?] ?]; discriminate Hget.
    + cbn [mask_field_with]. rewrite mask_pure_dict.
      destruct rest as [|[k3|?] r]; try discriminate Hget.
      destruct (governing_of_field k3 r) as [k' G].
      apply IHn; [lia | exact Hw | exact He | | exact Hget].
      rewrite G. f_equal. exact (governing_field _ _ _ _ Hg G).
    + rewrite mask_field_with_list.
      destruct rest as [|[?|i] rest']; try discriminate Hget; [discriminate He|].
      cbn [get] in Hget |- *. rewrite nth_error_map.
      destruct (nth_error l i) as [item|]; [|discriminate Hget].
      cbn [option_map]. cbn [length] in Hlen.
      destruct item as [z | d'' | l'].
      * destruct rest' as [|[?|?] ?]; discriminate Hget.
      * cbn [pure_elem]. rewrite mask_pure_dict.
        destruct rest' as [|[k3|?] r]; try discriminate Hget.
        destruct (governing_of_field k3 r) as [k' G].
        apply IHn; [cbn [length] in *; lia | exact Hw | exact He | | exact Hget].
        rewrite G. f_equal.
        apply (governing_field key (Item i :: Field k3 :: r)); [exact Hg|].
        exact G.
      * destruct rest' as [|[?|?] ?]; try discriminate Hget.
        -- cbn [get] in Hget. inversion Hget; subst.
           cbn [governing] in Hg. inversion Hg; subst. reflexivity.
        -- discriminate Hw.
Qed.

(** C1 (amended).  For a well-formed record in which no list is a direct
    element of a list held by a field that is masked, [mask_dict] returns a
    record of the same shape: the same keys in the same order in every
    dict, as many elements in the same order in every list, and at every
    leaf the input's leaf or a string.  A list that is a direct element of
    the list of a masked field is treated as a scalar: at its place the
    output holds the string the selected strategy makes of the list's
    printed form. *)
Theorem shape_preserved (self : DataMasker) (data : dict) :
  well_formed (VDict data) = true ->
  (nested_lists_unmasked self (VDict data) = true ->
   exists out, mask_dict self data = Ok out /\
               same_shape (VDict data) (VDict out)) /\
  (forall (path : list step) (key : str) (inner : list value),
     walked path = true -> ends_in_item path = true ->
     governing path = Some key -> masks self key = true ->
     get path (VDict data) = Some (VList inner) ->
     exists masked out,
       selected key (py_str (VList inner)) (py_str (VList inner)) = Ok masked /\
       mask_dict self data = Ok out /\
       get path (VDict out) = Some (VStr masked)).
Proof.
  intros Hwf. split.
  - intros Hok. exists (pure_items self data).
    split; [apply mask_dict_pure; exact Hwf|].
    rewrite <- mask_pure_dict.
    apply (field_shape self (VDict data) []). exact Hok.
  - intros path key inner Hw He Hg M Hget.
    destruct (selected_total key (py_str (VList inner))) as [m Hm].
    exists m, (pure_items self data).
    split; [exact Hm|]. split; [apply mask_dict_pure; exact Hwf|].
    rewrite (get_list_elem self key inner (length path) path data);
      try assumption; [|lia].
    unfold masks in M. apply andb_true_iff in M. destruct M as [E S].
    unfold leaf. rewrite mask_value_masked by (try assumption; reflexivity).
    rewrite Hm. reflexivity.
Qed.

(** The team record keeps its shape; the inner list of
    [{"email": [[1, 2]]}] becomes the masked text of ["[1, 2]"]. *)
Lemma shape_preserved_witness :
  (exists out, mask_dict data_masker team_record = Ok out /\
               same_shape (VDict team_record) (VDict out)) /\
  (exists masked out,
     selected "email" (py_str (VList [VScalar (SInt 1); VScalar (SInt 2)]))
              (py_str (VList [VScalar (SInt 1); VScalar (SInt 2)]))
     = Ok masked /\
     mask_dict data_masker nested_list_record = Ok out /\
     get [Field "email"; Item 0] (VDict out) = Some (VStr masked)).
Proof.
  split.
  - apply (shape_preserved data_masker team_record); vm_compute; reflexivity.
  - apply (shape_preserved data_masker nested_list_record);
      vm_compute; reflexivity.
Defined.

(** C1 as stated fails: under the default masker the inner list of
    [{"email": [[1, 2]]}] comes back as the string ["[****]"], the masked
    text of the list. *)
Lemma shape_lost_in_nested_list :
  well_formed (VDict nested_list_record) = true /\
  mask_dict data_masker nested_list_record
  = Ok [ (lit "email", VList [VStr "[****]"]) ] /\
  ~ same_shape (VDict nested_list_record)
               (VDict [ (lit "email", VList [VStr "[****]"]) ]).
Proof.
  split; [reflexivity|]. split; [reflexivity|].
  intros H. inversion H as [| ? ? H1 |]; subst.
  inversion H1 as [| ? ? ? ? [_ H2] _]; subst. cbn [snd] in H2.
  inversion H2 as [| | ? ? H3]; subst.
  inversion H3 as [| ? ? ? ? H4 _]; subst.
  inversion H4.
Qed.

Lemma masks_spec (self : DataMasker) (field_name : str) :
  masks self field_name = true <->
  enabled self = true /\ sensitive self field_name.
Proof.
  unfold masks. rewrite andb_true_iff, should_mask_spec. reflexivity.
Qed.

(** C3 (amended).  [mask_value] masks under a field name exactly when
    masking is enabled and the lowercased name has a configured fragment as
    a substring: then every value but [None] comes back as the string a
    strategy makes of its text, otherwise every value comes back as it is.
    So a field named ["emailing_list_id"] is masked once ["email"] is
    configured, and a scalar that lies under a field with no fragment, at
    any place the traversal walks to (a place reached without stepping
    from a list straight into a list), is found unchanged at that place in
    the output. *)
Theorem sensitive_by_substring (self : DataMasker) (field_name : str) :
  (masks self field_name = true <->
   enabled self = true /\
   exists fragment, In fragment (masked_fields self) /\
                    substring fragment (lower field_name)) /\
  (masks self field_name = true ->
   forall v, v <> VScalar SNone ->
     exists masked,
       selected field_name (py_str v) (py_str v) = Ok masked /\
       mask_value self field_name v = Ok (VStr masked)) /\
  (masks self field_name = false ->
   forall v, mask_value self field_name v = Ok v) /\
  (enabled self = true -> In (lit "email") (masked_fields self) ->
   masks self "emailing_list_id" = true) /\
  (masks self field_name = false ->
   forall (data : dict) (path : list step) (x : scalar),
     well_formed (VDict data) = true ->
     walked path = true -> governing path = Some field_name ->
     get path (VDict data) = Some (VScalar x) ->
     exists out, mask_dict self data = Ok out /\
                 get path (VDict out) = Some (VScalar x)).
Proof.
  split; [apply masks_spec|]. split; [|split; [|split]].
  - intros M v Hv. unfold masks in M. apply andb_true_iff in M.
    destruct M as [He Hs].
    destruct (selected_total field_name (py_str v)) as [m Hm].
    exists m. split; [exact Hm|].
    rewrite mask_value_masked by (try assumption; apply is_None_false, Hv).
    rewrite Hm. reflexivity.
  - intros M v. apply mask_value_unmasked. exact M.
  - intros He Hin. apply masks_spec. split; [exact He|].
    exists (lit "email"). split; [exact Hin|].
    exists [], (lit "ing_list_id"). reflexivity.
  - intros M data path x Hwf Hw Hg Hget.
    exists (pure_items self data). split; [apply mask_dict_pure; exact Hwf|].
    apply (get_unmasked self field_name x M (length path));
      [lia | exact Hw | exact Hg | exact Hget].
Qed.

(** Under the default masker: the integer under ["emailing_list_id"] is
    masked, and the manager's name, two levels down, is not. *)
Lemma sensitive_by_substring_witness :
  (exists masked,
     selected "emailing_list_id" (py_str (VScalar (SInt 12345)))
              (py_str (VScalar (SInt 12345))) = Ok masked /\
     mask_value data_masker "emailing_list_id" (VScalar (SInt 12345))
     = Ok (VStr masked)) /\
  (exists out, mask_dict data_masker team_record = Ok out /\
               get [Field "manager"; Field "name"] (VDict out)
               = Some (VScalar (SStr "Li"))).
Proof.
  split.
  - destruct (sensitive_by_substring data_masker "emailing_list_id")
      as [_ [H' [_ [H _]]]].
    assert (M : masks data_masker "emailing_list_id" = true).
    { apply H; [reflexivity | vm_compute; left; reflexivity]. }
    apply (H' M (VScalar (SInt 12345))). discriminate.
  - destruct (sensitive_by_substring data_masker "name") as [_ [_ [_ [_ H]]]].
    assert (M : masks data_masker "name" = false) by (vm_compute; reflexivity).
    apply (H M team_record [Field "manager"; Field "name"] (SStr "Li"));
      vm_compute; reflexivity.
Defined.

(** C3 as stated fails: under the default masker the name inside
    [{"email": [[{"name": "Li"}]]}] lies under a field with no fragment,
    yet the list that holds its dict is an element of the list of a masked
    field and comes back as one masked string; the place is gone. *)
Lemma unmasked_field_lost_in_nested_list :
  well_formed (VDict list_in_list_record) = true /\
  masks data_masker "name" = false /\
  governing [Field "email"; Item 0; Item 0; Field "name"] = Some (lit "name") /\
  get [Field "email"; Item 0; Item 0; Field "name"] (VDict list_in_list_record)
  = Some (VStr "Li") /\
  mask_dict data_masker list_in_list_record
  = Ok [ (lit "email", VList [VStr "[**************]"]) ] /\
  get [Field "email"; Item 0; Item 0; Field "name"]
      (VDict [ (lit "email", VList [VStr "[**************]"]) ]) = None.
Proof.
  split; [reflexivity|]. split; [reflexivity|]. split; [reflexivity|].
  split; [reflexivity|]. split; reflexivity.
Qed.

(** ** Totality *)

Lemma short_phone (value : str) :
  length (strip_seps value) < 4 ->
  _mask_phone value = Ok (repeat "*"%char (length (strip_seps value))).
Proof.
  intros H. unfold _mask_phone.
  destruct (Z.geb_spec (len (strip_seps value)) 4); [by_length|].
  rewrite stars_len. reflexivity.
Qed.

Lemma short_credit_card (value : str) :
  length (strip_seps value) < 4 ->
  _mask_credit_card value = Ok (repeat "*"%char (length (strip_seps value))).
Proof.
  intros H. unfold _mask_credit_card.
  destruct (Z.geb_spec (len (strip_seps value)) 4); [by_length|].
  rewrite stars_len. reflexivity.
Qed.

Lemma short_ssn (value : str) :
  length (strip_seps value) < 4 ->
  _mask_ssn value = Ok (lit "***-**-" ++ strip_seps value).
Proof.
  intros H. unfold _mask_ssn, slice_from.
  replace (Z.to_nat (if (-4 <? 0)%Z then Z.max 0 (len (strip_seps value) + -4)
                     else (-4)%Z)) with 0.
  - reflexivity.
  - cbn. unfold len. lia.
Qed.

Lemma mask_list_total (self : DataMasker) (data : list value) :
  (forall item, In item data -> exists d, item = VDict d) ->
  exists out, mask_list self data = Ok out.
Proof.
  intros H. apply map_m_total. intros item Hin.
  destruct (H item Hin) as [d ->]. apply (mask_dict_total self d).
Qed.

(** [mask_list] is declared on lists of dicts; an element that is no dict
    has no [.items()]. *)
Remark mask_list_wants_dicts :
  mask_list data_masker [VScalar (SInt 1)] = Raise AttributeError.
Proof. reflexivity. Qed.

Lemma map_m_ext {A B : Type} (f g : A -> result B) (l : list A) :
  (forall a, In a l -> f a = g a) -> map_m f l = map_m g l.
Proof.
  induction l as [|a l IH]; intros H; [reflexivity|].
  cbn [map_m]. rewrite (H a) by (left; reflexivity).
  rewrite IH by (intros b Hb; apply H; right; exact Hb). reflexivity.
Qed.

Lemma fold_store_ext (F G : str -> value -> result value) (items : dict)
    (acc : result dict) :
  (forall k v, In (k, v) items -> F k v = G k v) ->
  fold_left (store F) items acc = fold_left (store G) items acc.
Proof.
  revert acc. induction items as [|[k v] items IH]; intros acc H; [reflexivity|].
  cbn [fold_left]. rewrite IH by (intros k' v' Hin; apply H; right; exact Hin).
  f_equal. unfold store. rewrite (H k v) by (left; reflexivity). reflexivity.
Qed.

Lemma depth_elem (x : value) (elems : list value) :
  In x elems -> depth x <= list_max (map depth elems).
Proof.
  intros H.
  assert (F : Forall (fun k => k <= list_max (map depth elems)) (map depth elems))
    by (apply list_max_le; lia).
  rewrite Forall_forall in F. apply F. apply in_map. exact H.
Qed.

Lemma depth_entry (k : str) (x : value) (items : dict) :
  In (k, x) items ->
  depth x <= list_max (map (fun kv => let '(_, x) := kv in depth x) items).
Proof.
  intros H.
  assert (F : Forall (fun n => n <= list_max (map (fun kv : str * value => let '(_, x) := kv in depth x) items))
                (map (fun kv : str * value => let '(_, x) := kv in depth x) items))
    by (apply list_max_le; lia).
  rewrite Forall_forall in F.
  apply (F (depth x)).
  apply (in_map (fun kv : str * value => let '(_, x) := kv in depth x) items (k, x)).
  exact H.
Qed.

Section Limits.

Variable I : Interpreter.

Lemma str_int_within_short (n : Z) :
  too_long I n = false -> str_int_within I n = Ok (str_of_int n).
Proof. intros H. unfold str_int_within. rewrite H. reflexivity. Qed.

Lemma repr_within_ok (v : value) :
  ints_short I v = true ->
  forall frames, depth v < frames -> repr_within I frames v = Ok (py_repr v).
Proof.
  induction v as [x | items IH | elems IH] using value_ind';
    intros Hs frames Hd.
  - destruct frames as [|f]; [lia|]. destruct x; try reflexivity.
    cbn [ints_short] in Hs. apply negb_true_iff in Hs.
    cbn [repr_within]. apply str_int_within_short. exact Hs.
  - destruct frames as [|f]; [lia|]. cbn [depth] in Hd.
    cbn [ints_short] in Hs. rewrite forallb_forall in Hs.
    cbn [repr_within].
    rewrite (map_m_pure _ (fun kv : str * value =>
                             let '(k, x) := kv in
                             repr_str k ++ lit ": " ++ py_repr x)).
    + reflexivity.
    + intros [k x] Hin. rewrite Forall_forall in IH.
      rewrite (IH (k, x) Hin); [reflexivity | exact (Hs (k, x) Hin) |].
      pose proof (depth_entry k x items Hin). cbn [snd]. lia.
  - destruct frames as [|f]; [lia|]. cbn [depth] in Hd.
    cbn [ints_short] in Hs. rewrite forallb_forall in Hs.
    cbn [repr_within].
    rewrite (map_m_pure _ py_repr).
    + reflexivity.
    + intros x Hin. rewrite Forall_forall in IH.
      apply (IH x Hin (Hs x Hin)).
      pose proof (depth_elem x elems Hin). lia.
Qed.

Lemma str_within_ok (v : value) (frames : nat) :
  ints_short I v = true -> depth v < frames ->
  str_within I frames v = Ok (py_str v).
Proof.
  intros Hs Hd. destruct v as [x | items | elems].
  - destruct x; try reflexivity.
    cbn [ints_short] in Hs. apply negb_true_iff in Hs.
    apply str_int_within_short. exact Hs.
  - apply repr_within_ok; assumption.
  - apply repr_within_ok; assumption.
Qed.

Variable self : DataMasker.

Lemma mask_value_within_ok (frames : nat) (field_name : str) (v : value) :
  ints_short I v = true ->
  library_frames I + 2 + depth v <= frames ->
  mask_value_within I frames self field_name v = mask_value self field_name v.
Proof.
  intros Hs Hd. destruct frames as [|f]; [lia|].
  unfold mask_value_within, mask_value.
  destruct (negb (enabled self) || is_None v); [reflexivity|].
  assert (E : Nat.ltb f (library_frames I) = false)
    by (apply Nat.ltb_ge; lia).
  rewrite E.
  destruct (negb (should_mask self (lower field_name))); [reflexivity|].
  rewrite str_within_ok by (try assumption; lia).
  reflexivity.
Qed.

Lemma mask_dict_rec_within_fold (f : nat) (items : dict) :
  mask_dict_rec_within I (S f) self (VDict items) =
  fold_left (store (mask_field_within I f self)) items (Ok []).
Proof. reflexivity. Qed.

Lemma mask_field_within_ok (v : value) :
  ints_short I v = true ->
  forall frames key,
    library_frames I + 2 + (1 + comprehension_frames I) * depth v <= frames ->
    mask_field_within I frames self key v = mask_field self key v.
Proof.
  induction v as [x | items IH | elems IH] using value_ind';
    intros Hs frames key Hd.
  - apply mask_value_within_ok; [exact Hs | cbn [depth] in *; lia].
  - cbn [depth] in Hd. cbn [ints_short] in Hs. rewrite forallb_forall in Hs.
    destruct frames as [|f]; [lia|].
    cbn [mask_field_within mask_field].
    rewrite mask_dict_rec_within_fold, mask_dict_rec_fold.
    rewrite (fold_store_ext (mask_field_within I f self) (mask_field self));
      [reflexivity|].
    intros k x Hin. rewrite Forall_forall in IH.
    apply (IH (k, x) Hin (Hs (k, x) Hin)).
    pose proof (depth_entry k x items Hin). cbn [snd]. nia.
  - cbn [depth] in Hd. cbn [ints_short] in Hs. rewrite forallb_forall in Hs.
    cbn [mask_field_within mask_field].
    assert (E : Nat.ltb frames (comprehension_frames I) = false)
      by (apply Nat.ltb_ge; nia).
    rewrite E. f_equal. apply map_m_ext.
    intros item Hin. rewrite Forall_forall in IH.
    pose proof (depth_elem item elems Hin) as Hle.
    specialize (IH item Hin (Hs item Hin) (frames - comprehension_frames I) key).
    destruct item as [x | d | l].
    + apply mask_value_within_ok; [exact (Hs _ Hin) | cbn [depth] in *; nia].
    + apply IH. nia.
    + apply mask_value_within_ok; [exact (Hs _ Hin) | nia].
Qed.

Lemma mask_dict_within_ok (frames : nat) (data : dict) :
  ints_short I (VDict data) = true ->
  library_frames I + 2 + (1 + comprehension_frames I) * depth (VDict data)
  <= frames ->
  mask_dict_within I frames self data = mask_dict self data.
Proof.
  intros Hs Hd.
  pose proof (mask_field_within_ok (VDict data) Hs frames [] Hd) as H.
  cbn [mask_field_within mask_field] in H.
  unfold mask_dict_within, mask_dict.
  destruct (mask_dict_rec_within I frames self (VDict data)) as [d | e],
           (mask_dict_rec self (VDict data)) as [d' | e'];
    cbn [bind] in H; congruence.
Qed.

End Limits.

(** C9 (amended).  Each strategy returns on every string, and input
    shorter than a strategy expects takes the fallback: all stars for fewer
    than four characters left after the separators are stripped (phone,
    credit card), the whole stripped text after the fixed prefix (SSN), all
    stars for one or two characters (generic), the input itself without an
    ["@"] (email).  [mask_value] and [mask_dict] return, with the result
    computed without regard to the limits, on every value that stays
    within the interpreter's limits: no int in it has more digits than
    [str()] converts, and the calls left cover the library's calls, two
    more, and for every level of nesting one call and the calls a
    comprehension takes for itself.  A scalar of another type is masked as
    the text [str] prints for it. *)
Theorem total_within_interpreter_limits :
  (forall value, exists r, _mask_email value = Ok r) /\
  (forall value, exists r, _mask_phone value = Ok r) /\
  (forall value, exists r, _mask_credit_card value = Ok r) /\
  (forall value, exists r, _mask_ssn value = Ok r) /\
  (forall value, exists r, _mask_generic value = Ok r) /\
  (forall I frames self field_name v,
     ints_short I v = true ->
     library_frames I + 2 + depth v <= frames ->
     exists r, mask_value_within I frames self field_name v = Ok r /\
               mask_value self field_name v = Ok r) /\
  (forall I frames self data,
     ints_short I (VDict data) = true ->
     library_frames I + 2 +
     (1 + comprehension_frames I) * depth (VDict data) <= frames ->
     exists out, mask_dict_within I frames self data = Ok out /\
                 mask_dict self data = Ok out) /\
  (forall value,
     length (strip_seps value) < 4 ->
     _mask_phone value = Ok (repeat "*"%char (length (strip_seps value))) /\
     _mask_credit_card value
     = Ok (repeat "*"%char (length (strip_seps value))) /\
     _mask_ssn value = Ok (lit "***-**-" ++ strip_seps value)) /\
  (forall value,
     length value <= 2 ->
     _mask_generic value = Ok (repeat "*"%char (length value))) /\
  (forall value, ~ In "@"%char value -> _mask_email value = Ok value) /\
  (forall I frames self field_name shown printed,
     library_frames I + 2 <= frames ->
     mask_value_within I frames self field_name
       (VScalar (SOther shown printed)) =
     if masks self field_name
     then mask_value_within I frames self field_name (VStr shown)
     else Ok (VScalar (SOther shown printed))).
Proof.
  split; [apply mask_email_total|].
  split; [apply mask_phone_total|].
  split; [apply mask_credit_card_total|].
  split; [apply mask_ssn_total|].
  split; [apply mask_generic_total|].
  split.
  { intros I frames self field_name v Hs Hd.
    destruct (mask_value_total self field_name v) as [r Hr].
    exists r. rewrite mask_value_within_ok by assumption.
    split; exact Hr. }
  split.
  { intros I frames self data Hs Hd.
    destruct (mask_dict_total self data) as [out Ho].
    exists out. rewrite mask_dict_within_ok by assumption.
    split; exact Ho. }
  split.
  { intros value H.
    split; [apply short_phone; exact H|].
    split; [apply short_credit_card; exact H | apply short_ssn; exact H]. }
  split; [apply mask_generic_short|].
  split; [apply mask_email_no_at|].
  intros I frames self field_name shown printed Hd.
  rewrite !mask_value_within_ok
    by (try reflexivity; unfold VStr; cbn [depth]; lia).
  destruct (masks self field_name) eqn:M.
  - unfold masks in M. apply andb_true_iff in M. destruct M as [He Hs].
    rewrite !mask_value_masked by (try assumption; reflexivity).
    reflexivity.
  - apply mask_value_unmasked. exact M.
Qed.

(** The team record under the default limits with all 1000 calls left, and
    the fallbacks on short input. *)
Lemma total_within_interpreter_limits_witness :
  (exists out,
     mask_dict_within default_interpreter 1000 data_masker team_record
     = Ok out /\
     mask_dict data_masker team_record = Ok out) /\
  (exists r,
     mask_value_within default_interpreter 1000 data_masker "password"
       (VScalar (SInt (10 ^ 4300 - 1))) = Ok r /\
     mask_value data_masker "password" (VScalar (SInt (10 ^ 4300 - 1)))
     = Ok r) /\
  (_mask_phone "12-3" = Ok (lit "***") /\
   _mask_credit_card "12-3" = Ok (lit "***") /\
   _mask_ssn "12-3" = Ok (lit "***-**-123")) /\
  _mask_generic "ab" = Ok (lit "**") /\
  _mask_email "no address" = Ok (lit "no address").
Proof.
  destruct total_within_interpreter_limits
    as [_ [_ [_ [_ [_ [Hv [Hd [H1 [H2 [H3 _]]]]]]]]]].
  split; [|split; [|split; [|split]]].
  - apply (Hd default_interpreter 1000 data_masker team_record);
      [vm_compute; reflexivity | vm_compute; lia].
  - apply (Hv default_interpreter 1000 data_masker (lit "password")
              (VScalar (SInt (10 ^ 4300 - 1))));
      [vm_compute; reflexivity | vm_compute; lia].
  - apply (H1 (lit "12-3")). vm_compute. lia.
  - apply (H2 (lit "ab")). vm_compute. lia.
  - apply (H3 (lit "no address")). vm_compute. intuition discriminate.
Defined.

(** C9 as stated fails.  With all 1000 calls of the default recursion
    limit left, an int of 4301 digits under a masked field raises
    [ValueError] out of [mask_value] and out of [mask_dict], and a record
    of 1001 dicts nested in one another raises [RecursionError]. *)
Lemma raises_past_interpreter_limits :
  mask_value_within default_interpreter 1000 data_masker "password"
    (VScalar (SInt (10 ^ 4300))) = Raise ValueError /\
  mask_dict_within default_interpreter 1000 data_masker
    [(lit "password", VScalar (SInt (10 ^ 4300)))] = Raise ValueError /\
  mask_dict_within default_interpreter 1000 data_masker
    [(lit "a", nested_dicts 1000)] = Raise RecursionError.
Proof.
  split; [vm_compute; reflexivity|]. split; vm_compute; reflexivity.
Qed.

(** ** Construction *)

Lemma split_nonempty (sep : ascii) (s : str) : split sep s <> [].
Proof.
  destruct s as [|c s]; cbn [split]; [discriminate|].
  destruct (Ascii.eqb c sep); [discriminate|].
  destruct (split sep s); discriminate.
Qed.

(** The constructor never leaves the masker with an empty list. *)
Lemma init_never_empty (settings : Settings.t) (arg : option (list str)) :
  masked_fields (DataMasker__init__ settings arg) <> [].
Proof.
  assert (H : Settings.masked_fields_list settings <> []).
  { unfold Settings.masked_fields_list.
    destruct (split "," (Settings.masked_fields settings)) eqn:E;
      [exact (False_ind _ (split_nonempty _ _ E)) | discriminate]. }
  destruct arg as [[|f fs]|]; cbn [DataMasker__init__ masked_fields];
    try exact H. discriminate.
Qed.

(** With an empty list in the masker itself nothing is masked. *)
Lemma empty_list_masks_nothing (self : DataMasker) (field_name : str) (v : value) :
  masked_fields self = [] -> mask_value self field_name v = Ok v.
Proof.
  intros H. apply mask_value_unmasked. unfold masks, should_mask.
  rewrite H. cbn [existsb]. apply andb_false_r.
Qed.

(** C5.  What the code does when no fragment is configured.  An empty
    list given to the constructor is replaced by the list of the settings,
    so an address under ["email"] is still masked; an empty settings string
    becomes the list holding the empty string, which occurs in every field
    name, so every field is masked. *)
Theorem empty_configuration_still_masks :
  masked_fields masker_of_empty_list =
  [lit "email"; lit "phone"; lit "ssn"; lit "credit_card"; lit "password"] /\
  enabled masker_of_empty_list = true /\
  mask_value masker_of_empty_list "email" (VStr "zhang@company.com")
  = Ok (VStr "z***g@company.com") /\
  masked_fields masker_of_empty_setting = [lit ""] /\
  mask_value masker_of_empty_setting "name" (VStr "Wang") = Ok (VStr "W**g") /\
  mask_dict masker_of_empty_setting [(lit "name", VStr "Wang")]
  = Ok [(lit "name", VStr "W**g")].
Proof. repeat split; vm_compute; reflexivity. Qed.

(** ** Order of the rules *)

Lemma nth_error_before {A : Type} (before after : list A) (x : A) (i : nat)
    (y : A) (P : A -> Prop) :
  Forall (fun z => ~ P z) before -> P y ->
  nth_error (before ++ x :: after) i = Some y -> length before <= i.
Proof.
  intros Hb Hy Hn. destruct (le_lt_dec (length before) i) as [H|H]; [exact H|].
  rewrite nth_error_app1 in Hn by exact H.
  apply nth_error_In in Hn. rewrite Forall_forall in Hb.
  exfalso. exact (Hb y Hn Hy).
Qed.

(** The text of [None] matches no pattern of the table. *)
Lemma applies_not_None (field_name : str) (v : value) (r : rule) :
  In r patterns -> rule_applies field_name (py_str v) r -> v <> VScalar SNone.
Proof.
  intros Hin [_ Hm] ->. apply re_match_spec in Hm.
  destruct Hin as [<- | [<- | [<- | [<- | []]]]]; vm_compute in Hm;
    discriminate Hm.
Qed.

Lemma default_masks_rule_names (field_name : str) (r : rule) :
  In r patterns -> substring (rule_name r) (lower field_name) ->
  masks data_masker field_name = true.
Proof.
  intros Hin Hsub. apply masks_spec. split; [reflexivity|].
  exists (rule_name r). split; [|exact Hsub].
  destruct Hin as [<- | [<- | [<- | [<- | []]]]]; vm_compute; tauto.
Qed.

Lemma first_rule_runs (self : DataMasker) (field_name : str) (v : value)
    (i : nat) (ri : rule) :
  masks self field_name = true ->
  nth_error patterns i = Some ri ->
  rule_applies field_name (py_str v) ri ->
  first_applying_rule_runs self field_name v i.
Proof.
  intros M Hi Ai.
  assert (Hv : v <> VScalar SNone).
  { apply (applies_not_None field_name v ri); [|exact Ai].
    exact (nth_error_In _ _ Hi). }
  unfold masks in M. apply andb_true_iff in M. destruct M as [He Hs].
  destruct (find (rule_appliesb field_name (py_str v)) patterns)
    as [rk|] eqn:E.
  - destruct (find_first _ _ _ E) as [before [after [Hp [Hk Hb]]]].
    assert (Hb' : Forall (fun z => ~ rule_applies field_name (py_str v) z)
                         before).
    { eapply Forall_impl; [|exact Hb]. intros r; apply not_applies. }
    destruct (patterns_total rk (py_str v)) as [masked Hm].
    { rewrite Hp. apply in_or_app. right; left; reflexivity. }
    exists (length before), rk, masked.
    split; [|split; [|split; [|split; [|split]]]].
    + rewrite Hp in Hi. exact (nth_error_before _ _ _ _ _ _ Hb' Ai Hi).
    + rewrite Hp, nth_error_app2, Nat.sub_diag by lia. reflexivity.
    + apply rule_appliesb_spec. exact Hk.
    + intros m rm Hlt Hn. rewrite Hp, nth_error_app1 in Hn by exact Hlt.
      apply nth_error_In in Hn. rewrite Forall_forall in Hb'.
      exact (Hb' rm Hn).
    + exact Hm.
    + rewrite mask_value_masked
        by (try assumption; apply is_None_false, Hv).
      unfold selected. rewrite E, Hm. reflexivity.
  - exfalso. pose proof (find_none _ _ E) as Hn.
    rewrite Forall_forall in Hn. apply nth_error_In in Hi.
    exact (not_applies _ _ _ (Hn ri Hi) Ai).
Qed.

(** C10.  The table lists its rules as email, phone, credit_card, ssn.
    When the rules at two positions [i < j] both apply to a field, the
    strategy run is that of the rule that applies and stands before every
    other rule that does: for any masker that masks the field, and for the
    default masker with nothing more assumed, since it masks every field
    that names a rule.  For the field ["ssn_phone"] with the value
    ["0912345678"] the phone and the ssn rule both apply and the value is
    masked as a phone number. *)
Theorem earliest_rule_wins :
  map rule_name patterns
  = [lit "email"; lit "phone"; lit "credit_card"; lit "ssn"] /\
  (forall (self : DataMasker) (field_name : str) (v : value)
          (i j : nat) (ri rj : rule),
     masks self field_name = true ->
     nth_error patterns i = Some ri -> nth_error patterns j = Some rj ->
     i < j ->
     rule_applies field_name (py_str v) ri ->
     rule_applies field_name (py_str v) rj ->
     first_applying_rule_runs self field_name v i) /\
  (forall (field_name : str) (v : value) (i j : nat) (ri rj : rule),
     nth_error patterns i = Some ri -> nth_error patterns j = Some rj ->
     i < j ->
     rule_applies field_name (py_str v) ri ->
     rule_applies field_name (py_str v) rj ->
     first_applying_rule_runs data_masker field_name v i) /\
  (rule_applies "ssn_phone" (lit "0912345678") phone_rule /\
   rule_applies "ssn_phone" (lit "0912345678") ssn_rule /\
   _mask_phone "0912345678" = Ok (lit "09******78") /\
   _mask_ssn "0912345678" = Ok (lit "***-**-5678") /\
   mask_value data_masker "ssn_phone" (VStr "0912345678")
   = Ok (VStr "09******78")).
Proof.
  split; [reflexivity|]. split; [|split].
  - intros self field_name v i j ri rj M Hi _ _ Ai _.
    exact (first_rule_runs self field_name v i ri M Hi Ai).
  - intros field_name v i j ri rj Hi _ _ Ai _.
    apply (first_rule_runs data_masker field_name v i ri); try assumption.
    apply (default_masks_rule_names field_name ri).
    + exact (nth_error_In _ _ Hi).
    + exact (proj1 Ai).
  - repeat split; try (apply contains_spec; vm_compute; reflexivity);
      try (apply re_match_spec; vm_compute; reflexivity);
      vm_compute; reflexivity.
Qed.

Lemma earliest_rule_wins_witness :
  first_applying_rule_runs data_masker "ssn_phone" (VStr "0912345678") 1.
Proof.
  destruct earliest_rule_wins as [_ [_ [H _]]].
  apply (H (lit "ssn_phone") (VStr "0912345678") 1 3 phone_rule ssn_rule).
  - reflexivity.
  - reflexivity.
  - lia.
  - apply rule_appliesb_spec. vm_compute. reflexivity.
  - apply rule_appliesb_spec. vm_compute. reflexivity.
Defined.

(** * Further properties of the code *)

(** ** Characters *)

Lemma lower_char_idem (c : ascii) : lower_char (lower_char c) = lower_char c.
Proof. destruct c as [[] [] [] [] [] [] [] []]; reflexivity. Qed.

Lemma lower_char_not_upper (c : ascii) : is_upper_az (lower_char c) = false.
Proof. destruct c as [[] [] [] [] [] [] [] []]; reflexivity. Qed.

Lemma isspace_lower_char (c : ascii) : isspace (lower_char c) = isspace c.
Proof. destruct c as [[] [] [] [] [] [] [] []]; reflexivity. Qed.

Lemma isdigit_not_sep (c : ascii) : isdigit c = true -> is_sep c = false.
Proof. destruct c as [[] [] [] [] [] [] [] []]; (reflexivity || discriminate). Qed.

Lemma star_not_sep : is_sep "*"%char = false.
Proof. reflexivity. Qed.

Lemma lower_idem (s : str) : lower (lower s) = lower s.
Proof.
  unfold lower. rewrite map_map. apply map_ext. apply lower_char_idem.
Qed.


(** ** Slices and separators *)

Lemma slice_from_suffix (front tail : str) :
  0 < length tail ->
  slice_from (front ++ tail) (- Z.of_nat (length tail)) = tail.
Proof.
  intros H. unfold slice_from.
  destruct (Z.ltb_spec (- Z.of_nat (length tail)) 0) as [_|G]; [|lia].
  replace (Z.to_nat (Z.max 0 (len (front ++ tail) + - Z.of_nat (length tail))))
    with (length front) by by_length.
  rewrite skipn_app, Nat.sub_diag, skipn_all. reflexivity.
Qed.

Lemma slice_to_prefix (front tail : str) :
  slice_to (front ++ tail) (Z.of_nat (length front)) = front.
Proof.
  unfold slice_to.
  destruct (Z.ltb_spec (Z.of_nat (length front)) 0) as [G|_]; [lia|].
  rewrite Nat2Z.id, firstn_app, Nat.sub_diag, firstn_all. cbn [firstn].
  apply app_nil_r.
Qed.

(** A string of at least [n] characters splits before its last [n]. *)
Lemma split_tail (n : nat) (s : str) :
  n <= length s ->
  exists front tail, s = front ++ tail /\ length tail = n.
Proof.
  intros H. exists (firstn (length s - n) s), (skipn (length s - n) s).
  split; [symmetry; apply firstn_skipn|]. rewrite length_skipn. lia.
Qed.

Lemma four_edges (s : str) :
  4 <= length s ->
  exists a b mid c d, s = a :: b :: mid ++ [c; d] /\ length mid = length s - 4.
Proof.
  intros H. destruct s as [|a [|b s]]; try (cbn [length] in H; lia).
  destruct (split_tail 2 s) as [mid [tail [-> Ht]]];
    [cbn [length] in H; lia|].
  destruct tail as [|c [|d [|? ?]]]; try discriminate Ht.
  exists a, b, mid, c, d. split; [reflexivity|].
  cbn [length]. rewrite length_app. cbn [length]. lia.
Qed.

Lemma strip_seps_app (a b : str) :
  strip_seps (a ++ b) = strip_seps a ++ strip_seps b.
Proof. apply filter_app. Qed.

Lemma strip_seps_fixed (s : str) :
  Forall (fun c => is_sep c = false) s -> strip_seps s = s.
Proof.
  induction 1 as [|c s Hc _ IH]; [reflexivity|].
  unfold strip_seps in *. cbn [filter]. rewrite Hc. cbn [negb].
  rewrite IH. reflexivity.
Qed.

Lemma strip_seps_clean (s : str) :
  Forall (fun c => is_sep c = false) (strip_seps s).
Proof.
  apply Forall_forall. intros c Hc. apply strip_seps_In in Hc. tauto.
Qed.

Lemma stars_clean (n : nat) :
  Forall (fun c => is_sep c = false) (repeat "*"%char n).
Proof.
  apply Forall_forall. intros c Hc. apply repeat_spec in Hc. subst.
  reflexivity.
Qed.

(** ** The phone and the credit-card strategy *)

Lemma mask_phone_long (value : str) (a b c d : ascii) (mid : str) :
  strip_seps value = a :: b :: mid ++ [c; d] ->
  _mask_phone value = Ok (a :: b :: repeat "*"%char (length mid) ++ [c; d]).
Proof.
  intros E. unfold _mask_phone. rewrite E.
  destruct (Z.geb_spec (len (a :: b :: mid ++ [c; d])) 4); [|by_length].
  assert (H1 : slice_to (a :: b :: mid ++ [c; d]) 2 = [a; b])
    by apply (slice_to_prefix [a; b] (mid ++ [c; d])).
  assert (H2 : slice_from (a :: b :: mid ++ [c; d]) (-2) = [c; d]).
  { apply (slice_from_suffix (a :: b :: mid) [c; d]). cbn [length]. lia. }
  assert (H3 : stars (len (a :: b :: mid ++ [c; d]) - 4)
               = repeat "*"%char (length mid)).
  { unfold stars. f_equal. by_length. }
  rewrite H1, H2, H3. reflexivity.
Qed.

Lemma mask_credit_card_long (value front tail : str) :
  strip_seps value = front ++ tail -> length tail = 4 ->
  _mask_credit_card value = Ok (repeat "*"%char (length front) ++ tail).
Proof.
  intros E Ht. unfold _mask_credit_card. rewrite E.
  destruct (Z.geb_spec (len (front ++ tail)) 4); [|by_length].
  assert (H2 : slice_from (front ++ tail) (-4) = tail).
  { replace (-4)%Z with (- Z.of_nat (length tail))%Z by lia.
    apply slice_from_suffix. lia. }
  assert (H3 : stars (len (front ++ tail) - 4) = repeat "*"%char (length front)).
  { unfold stars. f_equal. by_length. }
  rewrite H2, H3. reflexivity.
Qed.

(** X1.  The phone strategy, on the value with ["-"] and whitespace
    deleted: with four or more characters left it keeps the first two and
    the last two and puts one star for every character between them, so
    with exactly four left nothing is hidden; with fewer it returns one
    star per character.  The result is as long as the stripped value. *)
Theorem mask_phone_spec (value : str) :
  (4 <= length (strip_seps value) ->
   exists a b mid c d,
     strip_seps value = a :: b :: mid ++ [c; d] /\
     _mask_phone value
     = Ok (a :: b :: repeat "*"%char (length mid) ++ [c; d])) /\
  (length (strip_seps value) = 4 -> _mask_phone value = Ok (strip_seps value)) /\
  (length (strip_seps value) < 4 ->
   _mask_phone value = Ok (repeat "*"%char (length (strip_seps value)))) /\
  (exists out, _mask_phone value = Ok out /\
               length out = length (strip_seps value)).
Proof.
  assert (L : 4 <= length (strip_seps value) ->
              exists a b mid c d,
                strip_seps value = a :: b :: mid ++ [c; d] /\
                length mid = length (strip_seps value) - 4 /\
                _mask_phone value
                = Ok (a :: b :: repeat "*"%char (length mid) ++ [c; d])).
  { intros H. destruct (four_edges _ H) as [a [b [mid [c [d [E Hm]]]]]].
    exists a, b, mid, c, d. split; [exact E|]. split; [exact Hm|].
    apply mask_phone_long. exact E. }
  split; [|split; [|split]].
  - intros H. destruct (L H) as [a [b [mid [c [d [E [_ R]]]]]]].
    exists a, b, mid, c, d. split; assumption.
  - intros H. destruct L as [a [b [mid [c [d [E [Hm R]]]]]]]; [lia|].
    rewrite R, E. destruct mid; [reflexivity | cbn [length] in Hm; lia].
  - apply short_phone.
  - destruct (le_lt_dec 4 (length (strip_seps value))) as [H|H].
    + destruct (L H) as [a [b [mid [c [d [E [_ R]]]]]]].
      eexists. split; [exact R|]. rewrite E. cbn [length].
      rewrite !length_app, repeat_length. reflexivity.
    + eexists. split; [apply short_phone; exact H|]. apply repeat_length.
Qed.

Lemma mask_phone_spec_witness :
  _mask_phone "12 34" = Ok (lit "1234") /\
  _mask_phone "1-2" = Ok (lit "**").
Proof.
  destruct (mask_phone_spec "12 34") as [_ [H _]].
  destruct (mask_phone_spec "1-2") as [_ [_ [H' _]]].
  split; [apply H | apply H']; vm_compute; lia.
Defined.

(** X2.  The credit-card strategy, on the value with ["-"] and
    whitespace deleted: with four or more characters left it keeps the last
    four and puts one star for every character before them; with fewer it
    returns one star per character.  The result is as long as the stripped
    value. *)
Theorem mask_credit_card_spec (value : str) :
  (4 <= length (strip_seps value) ->
   exists front tail,
     strip_seps value = front ++ tail /\ length tail = 4 /\
     _mask_credit_card value = Ok (repeat "*"%char (length front) ++ tail)) /\
  (length (strip_seps value) < 4 ->
   _mask_credit_card value
   = Ok (repeat "*"%char (length (strip_seps value)))) /\
  (exists out, _mask_credit_card value = Ok out /\
               length out = length (strip_seps value)).
Proof.
  assert (L : 4 <= length (strip_seps value) ->
              exists front tail,
                strip_seps value = front ++ tail /\ length tail = 4 /\
                _mask_credit_card value
                = Ok (repeat "*"%char (length front) ++ tail)).
  { intros H. destruct (split_tail 4 _ H) as [front [tail [E Ht]]].
    exists front, tail. split; [exact E|]. split; [exact Ht|].
    apply mask_credit_card_long; assumption. }
  split; [exact L|]. split; [apply short_credit_card|].
  destruct (le_lt_dec 4 (length (strip_seps value))) as [H|H].
  - destruct (L H) as [front [tail [E [_ R]]]].
    eexists. split; [exact R|]. rewrite E.
    rewrite !length_app, repeat_length. reflexivity.
  - eexists. split; [apply short_credit_card; exact H|]. apply repeat_length.
Qed.

Lemma mask_credit_card_spec_witness :
  exists front tail,
    strip_seps "1234-5678-9012-3456" = front ++ tail /\ length tail = 4 /\
    _mask_credit_card "1234-5678-9012-3456"
    = Ok (repeat "*"%char (length front) ++ tail).
Proof.
  destruct (mask_credit_card_spec "1234-5678-9012-3456") as [H _].
  apply H. vm_compute. lia.
Defined.

(** ** Length, repetition, hidden characters *)

(** The email strategy on a value cut at its last ["@"]. *)
Lemma mask_email_cut (local domain : str) :
  ~ In "@"%char domain ->
  exists masked_local,
    _mask_email (local ++ "@"%char :: domain)
    = Ok (masked_local ++ "@"%char :: domain) /\
    length masked_local = length local /\
    _mask_email (masked_local ++ "@"%char :: domain)
    = Ok (masked_local ++ "@"%char :: domain).
Proof.
  intros Hd. destruct (le_lt_dec (length local) 2) as [Hl | Hl].
  - exists (repeat "*"%char (length local)).
    split; [apply mask_email_short; assumption|].
    split; [apply repeat_length|].
    rewrite mask_email_short by (rewrite ?repeat_length; assumption).
    rewrite repeat_length. reflexivity.
  - destruct (edges local) as [first [mid [last [-> Hm]]]]; [lia|].
    assert (H1 : 1 <= length mid).
    { cbn [length] in Hl. rewrite length_app in Hl. cbn [length] in Hl. lia. }
    exists (first :: repeat "*"%char (length mid) ++ [last]).
    split; [apply mask_email_long; assumption|].
    split; [cbn [length]; rewrite !length_app, repeat_length; reflexivity|].
    rewrite mask_email_long by (rewrite ?repeat_length; assumption).
    rewrite repeat_length. reflexivity.
Qed.

Lemma mask_generic_again (value : str) :
  exists out, _mask_generic value = Ok out /\
              length out = length value /\
              _mask_generic out = Ok out.
Proof.
  destruct (le_lt_dec (length value) 2) as [Hl | Hl].
  - exists (repeat "*"%char (length value)).
    split; [apply mask_generic_short; assumption|].
    split; [apply repeat_length|].
    rewrite mask_generic_short by (rewrite repeat_length; assumption).
    rewrite repeat_length. reflexivity.
  - destruct (edges value) as [first [mid [last [-> Hm]]]]; [lia|].
    assert (H1 : 1 <= length mid).
    { cbn [length] in Hl. rewrite length_app in Hl. cbn [length] in Hl. lia. }
    exists (first :: repeat "*"%char (length mid) ++ [last]).
    split; [apply mask_generic_long; assumption|].
    split; [cbn [length]; rewrite !length_app, repeat_length; reflexivity|].
    rewrite mask_generic_long by (rewrite repeat_length; assumption).
    rewrite repeat_length. reflexivity.
Qed.

Lemma mask_email_again (value : str) :
  exists out, _mask_email value = Ok out /\
              length out = length value /\
              _mask_email out = Ok out.
Proof.
  destruct (in_dec ascii_dec "@"%char value) as [Hin | Hnot].
  - destruct (last_occurrence _ _ Hin) as [local [domain [-> Hd]]].
    destruct (mask_email_cut local domain Hd) as [ml [R [L R']]].
    exists (ml ++ "@"%char :: domain). split; [exact R|]. split; [|exact R'].
    rewrite !length_app. cbn [length]. lia.
  - exists value. rewrite mask_email_no_at by exact Hnot. repeat split.
Qed.

Lemma mask_phone_again (value : str) :
  exists out, _mask_phone value = Ok out /\ _mask_phone out = Ok out.
Proof.
  pose proof (strip_seps_clean value) as Hc.
  destruct (le_lt_dec 4 (length (strip_seps value))) as [H|H].
  - destruct (four_edges _ H) as [a [b [mid [c [d [E _]]]]]].
    exists (a :: b :: repeat "*"%char (length mid) ++ [c; d]).
    split; [apply mask_phone_long; exact E|].
    rewrite E in Hc. inversion Hc as [|? ? Ha Hc1]; subst.
    inversion Hc1 as [|? ? Hb Hc2]; subst.
    apply Forall_app in Hc2. destruct Hc2 as [_ Hcd].
    rewrite (mask_phone_long _ a b c d (repeat "*"%char (length mid))).
    + rewrite repeat_length. reflexivity.
    + apply strip_seps_fixed. constructor; [exact Ha|].
      constructor; [exact Hb|]. apply Forall_app. split; [apply stars_clean|].
      exact Hcd.
  - exists (repeat "*"%char (length (strip_seps value))).
    split; [apply short_phone; exact H|].
    assert (E : strip_seps (repeat "*"%char (length (strip_seps value)))
                = repeat "*"%char (length (strip_seps value)))
      by apply strip_seps_fixed, stars_clean.
    rewrite short_phone; rewrite E, repeat_length; [reflexivity | exact H].
Qed.

Lemma mask_credit_card_again (value : str) :
  exists out, _mask_credit_card value = Ok out /\
              _mask_credit_card out = Ok out.
Proof.
  pose proof (strip_seps_clean value) as Hc.
  destruct (le_lt_dec 4 (length (strip_seps value))) as [H|H].
  - destruct (split_tail 4 _ H) as [front [tail [E Ht]]].
    exists (repeat "*"%char (length front) ++ tail).
    split; [apply mask_credit_card_long; assumption|].
    rewrite E in Hc. apply Forall_app in Hc. destruct Hc as [_ Htail].
    rewrite (mask_credit_card_long _ (repeat "*"%char (length front)) tail).
    + rewrite repeat_length. reflexivity.
    + apply strip_seps_fixed, Forall_app. split; [apply stars_clean|].
      exact Htail.
    + exact Ht.
  - exists (repeat "*"%char (length (strip_seps value))).
    split; [apply short_credit_card; exact H|].
    assert (E : strip_seps (repeat "*"%char (length (strip_seps value)))
                = repeat "*"%char (length (strip_seps value)))
      by apply strip_seps_fixed, stars_clean.
    rewrite short_credit_card; rewrite E, repeat_length;
      [reflexivity | exact H].
Qed.

(** X3.  The email and the generic strategy return a string exactly as
    long as the one they are given: masking does not hide how long the
    value is. *)
Theorem email_and_generic_keep_length (value : str) :
  (exists out, _mask_email value = Ok out /\ length out = length value) /\
  (exists out, _mask_generic value = Ok out /\ length out = length value).
Proof.
  split.
  - destruct (mask_email_again value) as [out [R [L _]]]. exists out. tauto.
  - destruct (mask_generic_again value) as [out [R [L _]]]. exists out. tauto.
Qed.

(** X4.  The generic, email, phone and credit-card strategies are
    idempotent: applied to their own output they return it unchanged. *)
Theorem strategies_idempotent (value out : str) :
  (_mask_generic value = Ok out -> _mask_generic out = Ok out) /\
  (_mask_email value = Ok out -> _mask_email out = Ok out) /\
  (_mask_phone value = Ok out -> _mask_phone out = Ok out) /\
  (_mask_credit_card value = Ok out -> _mask_credit_card out = Ok out).
Proof.
  split; [|split; [|split]]; intros H.
  - destruct (mask_generic_again value) as [o [R [_ R']]]. congruence.
  - destruct (mask_email_again value) as [o [R [_ R']]]. congruence.
  - destruct (mask_phone_again value) as [o [R R']]. congruence.
  - destruct (mask_credit_card_again value) as [o [R R']]. congruence.
Qed.

Lemma strategies_idempotent_witness :
  _mask_generic "W**g" = Ok (lit "W**g") /\
  _mask_email "z***g@company.com" = Ok (lit "z***g@company.com") /\
  _mask_phone "09******78" = Ok (lit "09******78") /\
  _mask_credit_card "************3456" = Ok (lit "************3456").
Proof.
  destruct (strategies_idempotent "Wang" "W**g") as [H1 _].
  destruct (strategies_idempotent "zhang@company.com" "z***g@company.com")
    as [_ [H2 _]].
  destruct (strategies_idempotent "0912-345-678" "09******78")
    as [_ [_ [H3 _]]].
  destruct (strategies_idempotent "1234-5678-9012-3456" "************3456")
    as [_ [_ [_ H4]]].
  split; [|split; [|split]]; [apply H1 | apply H2 | apply H3 | apply H4];
    vm_compute; reflexivity.
Defined.

(** X5.  The characters a strategy replaces by stars do not influence its
    result: two values that agree in length and in the characters kept
    (first and last for generic, first two and last two of the stripped
    value for phone, last four of the stripped value for credit card) are
    masked to the same string. *)
Theorem hidden_characters_do_not_show :
  (forall (first last : ascii) (mid1 mid2 : str),
     length mid1 = length mid2 ->
     _mask_generic (first :: mid1 ++ [last])
     = _mask_generic (first :: mid2 ++ [last])) /\
  (forall v1 v2 : str,
     length v1 = length v2 -> length v1 <= 2 ->
     _mask_generic v1 = _mask_generic v2) /\
  (forall (v1 v2 : str) (a b c d : ascii) (mid1 mid2 : str),
     strip_seps v1 = a :: b :: mid1 ++ [c; d] ->
     strip_seps v2 = a :: b :: mid2 ++ [c; d] ->
     length mid1 = length mid2 ->
     _mask_phone v1 = _mask_phone v2) /\
  (forall v1 v2 front1 front2 tail : str,
     strip_seps v1 = front1 ++ tail -> strip_seps v2 = front2 ++ tail ->
     length front1 = length front2 -> length tail = 4 ->
     _mask_credit_card v1 = _mask_credit_card v2).
Proof.
  split; [|split; [|split]].
  - intros first last mid1 mid2 H.
    destruct mid1 as [|x mid1]; destruct mid2 as [|y mid2];
      try discriminate H; [reflexivity|].
    rewrite !mask_generic_long by (cbn [length]; lia).
    rewrite H. reflexivity.
  - intros v1 v2 H Hl.
    rewrite !mask_generic_short by lia. rewrite H. reflexivity.
  - intros v1 v2 a b c d mid1 mid2 E1 E2 H.
    rewrite (mask_phone_long _ _ _ _ _ _ E1), (mask_phone_long _ _ _ _ _ _ E2).
    rewrite H. reflexivity.
  - intros v1 v2 front1 front2 tail E1 E2 H Ht.
    rewrite (mask_credit_card_long _ _ _ E1 Ht).
    rewrite (mask_credit_card_long _ _ _ E2 Ht).
    rewrite H. reflexivity.
Qed.

Lemma hidden_characters_do_not_show_witness :
  _mask_generic "secret" = _mask_generic "s!!!!t" /\
  _mask_generic "ab" = _mask_generic "xy" /\
  _mask_phone "0912-345-678" = _mask_phone "09 000000 78" /\
  _mask_credit_card "1234-5678-9012-3456" = _mask_credit_card "0000000000003456".
Proof.
  destruct hidden_characters_do_not_show as [H1 [H2 [H3 H4]]].
  split; [|split; [|split]].
  - apply (H1 "s"%char "t"%char (lit "ecre") (lit "!!!!")). reflexivity.
  - apply (H2 (lit "ab") (lit "xy")); vm_compute; lia.
  - apply (H3 (lit "0912-345-678") (lit "09 000000 78") "0"%char "9"%char
              "7"%char "8"%char (lit "123456") (lit "000000"));
      vm_compute; reflexivity.
  - apply (H4 (lit "1234-5678-9012-3456") (lit "0000000000003456")
              (lit "123456789012") (lit "000000000000") (lit "3456"));
      vm_compute; reflexivity.
Defined.

(** ** What the pattern of a rule guarantees to its strategy *)

Lemma matches_cons_inv (a : atom) (p : pattern) (w : str) :
  matches (a :: p) w ->
  exists w1 w2, w = w1 ++ w2 /\ in_atom a w1 /\ matches p w2.
Proof.
  intros M. inversion M as [|a' p' w1 w2 A M']; subst.
  exists w1, w2. split; [reflexivity | split; assumption].
Qed.

Lemma matches_nil_inv (w : str) : matches [] w -> w = [].
Proof. intros M. inversion M. reflexivity. Qed.

(** A run of digits is left as it is by the stripping. *)
Lemma digit_run (n : nat) (m : option nat) (w : str) :
  in_atom (Atom isdigit n m) w ->
  strip_seps w = w /\ Forall (fun c => isdigit c = true) w /\
  n <= length w /\ within m (length w).
Proof.
  intros [F [L B]]. cbn [cls lo hi] in *.
  repeat split; try assumption.
  apply strip_seps_fixed. eapply Forall_impl; [|exact F].
  intros c; apply isdigit_not_sep.
Qed.

(** An optional separator is deleted by the stripping. *)
Lemma sep_run (w : str) : in_atom (opt is_sep) w -> strip_seps w = [].
Proof.
  intros [F _]. cbn [cls opt] in F. induction F as [|c w Hc _ IH];
    [reflexivity|].
  unfold strip_seps in *. cbn [filter]. rewrite Hc. exact IH.
Qed.

Lemma phone_pattern_digits (value : str) :
  prefix_matches phone_pattern value ->
  exists digits rest,
    strip_seps value = digits ++ rest /\
    Forall (fun c => isdigit c = true) digits /\
    8 <= length digits <= 12.
Proof.
  intros [w [rest [-> M]]]. unfold phone_pattern in M.
  apply matches_cons_inv in M. destruct M as [w1 [r1 [-> [A1 M]]]].
  apply matches_cons_inv in M. destruct M as [w2 [r2 [-> [A2 M]]]].
  apply matches_cons_inv in M. destruct M as [w3 [r3 [-> [A3 M]]]].
  apply matches_cons_inv in M. destruct M as [w4 [r4 [-> [A4 M]]]].
  apply matches_cons_inv in M. destruct M as [w5 [r5 [-> [A5 M]]]].
  apply matches_nil_inv in M. subst r5.
  apply digit_run in A1, A3, A5. apply sep_run in A2, A4.
  destruct A1 as [E1 [F1 [L1 B1]]]. destruct A3 as [E3 [F3 [L3 B3]]].
  destruct A5 as [E5 [F5 [L5 B5]]]. cbn [within] in *.
  exists (w1 ++ w3 ++ w5), (strip_seps rest).
  rewrite !strip_seps_app, E1, A2, E3, A4, E5. cbn [app].
  rewrite app_nil_r, <- !app_assoc. split; [reflexivity|].
  split; [repeat (apply Forall_app; split); assumption|].
  rewrite !length_app. lia.
Qed.

Lemma credit_card_pattern_digits (value : str) :
  prefix_matches credit_card_pattern value ->
  exists digits rest,
    strip_seps value = digits ++ rest /\
    Forall (fun c => isdigit c = true) digits /\ length digits = 16.
Proof.
  intros [w [rest [-> M]]]. unfold credit_card_pattern in M.
  apply matches_cons_inv in M. destruct M as [w1 [r1 [-> [A1 M]]]].
  apply matches_cons_inv in M. destruct M as [w2 [r2 [-> [A2 M]]]].
  apply matches_cons_inv in M. destruct M as [w3 [r3 [-> [A3 M]]]].
  apply matches_cons_inv in M. destruct M as [w4 [r4 [-> [A4 M]]]].
  apply matches_cons_inv in M. destruct M as [w5 [r5 [-> [A5 M]]]].
  apply matches_cons_inv in M. destruct M as [w6 [r6 [-> [A6 M]]]].
  apply matches_cons_inv in M. destruct M as [w7 [r7 [-> [A7 M]]]].
  apply matches_nil_inv in M. subst r7.
  apply digit_run in A1, A3, A5, A7. apply sep_run in A2, A4, A6.
  destruct A1 as [E1 [F1 [L1 B1]]]. destruct A3 as [E3 [F3 [L3 B3]]].
  destruct A5 as [E5 [F5 [L5 B5]]]. destruct A7 as [E7 [F7 [L7 B7]]].
  cbn [within] in *.
  exists (w1 ++ w3 ++ w5 ++ w7), (strip_seps rest).
  rewrite !strip_seps_app, E1, A2, E3, A4, E5, A6, E7. cbn [app].
  rewrite app_nil_r, <- !app_assoc. split; [reflexivity|].
  split; [repeat (apply Forall_app; split); assumption|].
  rewrite !length_app. lia.
Qed.

Lemma ssn_pattern_digits (value : str) :
  prefix_matches ssn_pattern value ->
  exists digits rest,
    strip_seps value = digits ++ rest /\
    Forall (fun c => isdigit c = true) digits /\ length digits = 9.
Proof.
  intros [w [rest [-> M]]]. unfold ssn_pattern in M.
  apply matches_cons_inv in M. destruct M as [w1 [r1 [-> [A1 M]]]].
  apply matches_cons_inv in M. destruct M as [w2 [r2 [-> [A2 M]]]].
  apply matches_cons_inv in M. destruct M as [w3 [r3 [-> [A3 M]]]].
  apply matches_cons_inv in M. destruct M as [w4 [r4 [-> [A4 M]]]].
  apply matches_cons_inv in M. destruct M as [w5 [r5 [-> [A5 M]]]].
  apply matches_nil_inv in M. subst r5.
  apply digit_run in A1, A3, A5. apply sep_run in A2, A4.
  destruct A1 as [E1 [F1 [L1 B1]]]. destruct A3 as [E3 [F3 [L3 B3]]].
  destruct A5 as [E5 [F5 [L5 B5]]]. cbn [within] in *.
  exists (w1 ++ w3 ++ w5), (strip_seps rest).
  rewrite !strip_seps_app, E1, A2, E3, A4, E5. cbn [app].
  rewrite app_nil_r, <- !app_assoc. split; [reflexivity|].
  split; [repeat (apply Forall_app; split); assumption|].
  rewrite !length_app. lia.
Qed.

(** X6.  Whenever the phone pattern lets the phone strategy run, the
    stripped value begins with at least eight digits, so the result shows
    two digits, then at least four stars, then the last two characters. *)
Theorem phone_rule_hides_four (value : str) :
  re_match phone_pattern value = true ->
  exists a b mid c d,
    strip_seps value = a :: b :: mid ++ [c; d] /\
    isdigit a = true /\ isdigit b = true /\ 4 <= length mid /\
    _mask_phone value = Ok (a :: b :: repeat "*"%char (length mid) ++ [c; d]).
Proof.
  intros M. apply re_match_spec, phone_pattern_digits in M.
  destruct M as [digits [rest [E [F [L _]]]]].
  destruct (four_edges (strip_seps value)) as [a [b [mid [c [d [E' Hm]]]]]].
  { rewrite E, length_app. lia. }
  exists a, b, mid, c, d. split; [exact E'|].
  assert (Hab : isdigit a = true /\ isdigit b = true).
  { destruct digits as [|a' [|b' ds]]; try (cbn [length] in L; lia).
    rewrite E in E'. inversion E'; subst.
    inversion F as [|? ? Ha F']; subst. inversion F' as [|? ? Hb _]; subst.
    split; assumption. }
  destruct Hab as [Ha Hb]. repeat split; try assumption.
  - rewrite Hm, E, length_app. lia.
  - apply mask_phone_long. exact E'.
Qed.

Lemma phone_rule_hides_four_witness :
  exists a b mid c d,
    strip_seps "0912-345-678" = a :: b :: mid ++ [c; d] /\
    isdigit a = true /\ isdigit b = true /\ 4 <= length mid /\
    _mask_phone "0912-345-678"
    = Ok (a :: b :: repeat "*"%char (length mid) ++ [c; d]).
Proof.
  apply (phone_rule_hides_four "0912-345-678"). vm_compute. reflexivity.
Defined.

(** X7.  Whenever the credit-card pattern lets the credit-card strategy
    run, the stripped value has at least sixteen characters, so the result
    is at least twelve stars followed by the last four characters. *)
Theorem credit_card_rule_hides_twelve (value : str) :
  re_match credit_card_pattern value = true ->
  exists front tail,
    strip_seps value = front ++ tail /\ length tail = 4 /\
    12 <= length front /\
    _mask_credit_card value = Ok (repeat "*"%char (length front) ++ tail).
Proof.
  intros M. apply re_match_spec, credit_card_pattern_digits in M.
  destruct M as [digits [rest [E [_ L]]]].
  destruct (split_tail 4 (strip_seps value)) as [front [tail [E' Ht]]].
  { rewrite E, length_app. lia. }
  exists front, tail. repeat split; try assumption.
  - assert (H : length (strip_seps value) = length front + length tail)
      by (rewrite E', length_app; reflexivity).
    rewrite E, length_app in H. lia.
  - apply mask_credit_card_long; assumption.
Qed.

Lemma credit_card_rule_hides_twelve_witness :
  exists front tail,
    strip_seps "1234 5678 9012 3456 (VISA)" = front ++ tail /\
    length tail = 4 /\ 12 <= length front /\
    _mask_credit_card "1234 5678 9012 3456 (VISA)"
    = Ok (repeat "*"%char (length front) ++ tail).
Proof.
  apply (credit_card_rule_hides_twelve "1234 5678 9012 3456 (VISA)").
  vm_compute. reflexivity.
Defined.

(** X8.  Whenever the ssn pattern lets the ssn strategy run, the result
    has the fixed shape: the seven characters ["***-**-"] and exactly four
    more, the last four of the stripped value. *)
Theorem ssn_rule_fixed_shape (value : str) :
  re_match ssn_pattern value = true ->
  exists front tail,
    strip_seps value = front ++ tail /\ length tail = 4 /\
    _mask_ssn value = Ok (lit "***-**-" ++ tail).
Proof.
  intros M. apply re_match_spec, ssn_pattern_digits in M.
  destruct M as [digits [rest [E [_ L]]]].
  destruct (split_tail 4 (strip_seps value)) as [front [tail [E' Ht]]].
  { rewrite E, length_app. lia. }
  exists front, tail. repeat split; try assumption.
  unfold _mask_ssn. rewrite E'.
  replace (-4)%Z with (- Z.of_nat (length tail))%Z by lia.
  rewrite slice_from_suffix by lia. reflexivity.
Qed.

Lemma ssn_rule_fixed_shape_witness :
  exists front tail,
    strip_seps "123-45-6789" = front ++ tail /\ length tail = 4 /\
    _mask_ssn "123-45-6789" = Ok (lit "***-**-" ++ tail).
Proof.
  apply (ssn_rule_fixed_shape "123-45-6789"). vm_compute. reflexivity.
Defined.

Lemma no_star_run (f : ascii -> bool) (w : str) :
  f "*"%char = false -> Forall (fun c => f c = true) w ->
  Forall (fun c => c <> "*"%char) w.
Proof.
  intros Hf F. eapply Forall_impl; [|exact F].
  intros c Hc ->. congruence.
Qed.

(** What a match of the email pattern says of the value: it starts with a
    character of the local class, has no star among its first six
    characters and holds an ["@"]. *)
Lemma email_pattern_shape (value : str) :
  prefix_matches email_pattern value ->
  exists x w rest,
    value = x :: w ++ rest /\ x <> "@"%char /\
    Forall (fun c => c <> "*"%char) (x :: w) /\
    In "@"%char w /\ 5 <= length w.
Proof.
  intros [w [rest [-> M]]]. unfold email_pattern in M.
  apply matches_cons_inv in M. destruct M as [w1 [r1 [-> [A1 M]]]].
  apply matches_cons_inv in M. destruct M as [w2 [r2 [-> [A2 M]]]].
  apply matches_cons_inv in M. destruct M as [w3 [r3 [-> [A3 M]]]].
  apply matches_cons_inv in M. destruct M as [w4 [r4 [-> [A4 M]]]].
  apply matches_cons_inv in M. destruct M as [w5 [r5 [-> [A5 M]]]].
  apply matches_nil_inv in M. subst r5. rewrite app_nil_r.
  destruct A1 as [F1 [L1 _]]. destruct A2 as [F2 [L2 B2]].
  destruct A3 as [F3 [L3 _]]. destruct A4 as [F4 [L4 _]].
  destruct A5 as [F5 [L5 _]].
  cbn [cls lo hi plus once at_least within] in *.
  destruct w1 as [|x w1]; [cbn [length] in L1; lia|].
  destruct w2 as [|y [|? ?]]; try (cbn [length] in L2, B2; lia).
  assert (Hy : y = "@"%char).
  { inversion F2 as [|? ? Hy _]; subst. apply Ascii.eqb_eq. exact Hy. }
  subst y.
  exists x, (w1 ++ ["@"%char] ++ w3 ++ w4 ++ w5), rest.
  split; [cbn [app]; rewrite <- !app_assoc; reflexivity|].
  split.
  { inversion F1 as [|? ? Hx _]; subst. intros ->. discriminate Hx. }
  split.
  { change (x :: w1 ++ ["@"%char] ++ w3 ++ w4 ++ w5)
      with ((x :: w1) ++ ["@"%char] ++ w3 ++ w4 ++ w5).
    repeat (apply Forall_app; split).
    - exact (no_star_run _ _ eq_refl F1).
    - exact (no_star_run _ _ eq_refl F2).
    - exact (no_star_run _ _ eq_refl F3).
    - exact (no_star_run _ _ eq_refl F4).
    - exact (no_star_run _ _ eq_refl F5). }
  split; [apply in_or_app; right; left; reflexivity|].
  rewrite !length_app. cbn [length]. lia.
Qed.

(** X9.  Whenever the email pattern lets the email strategy run, the
    value holds an ["@"], so the strategy never takes its branch that
    returns the input, and the result differs from the value: its first or
    its second character has become a star. *)
Theorem email_rule_always_masks (value : str) :
  re_match email_pattern value = true ->
  In "@"%char value /\
  exists out, _mask_email value = Ok out /\ out <> value /\
              length out = length value.
Proof.
  intros M. apply re_match_spec, email_pattern_shape in M.
  destruct M as [x [w [rest [E [Hx [F [Hat Lw]]]]]]].
  assert (Hin : In "@"%char value).
  { rewrite E. right. apply in_or_app. left; exact Hat. }
  split; [exact Hin|].
  destruct (last_occurrence _ _ Hin) as [local [domain [E' Hd]]].
  assert (Hx' : x <> "*"%char) by (inversion F; assumption).
  destruct local as [|x' local].
  { exfalso. rewrite E in E'. cbn [app] in E'. inversion E'. contradiction. }
  assert (x' = x) by (rewrite E in E'; inversion E'; reflexivity). subst x'.
  destruct (le_lt_dec (length (x :: local)) 2) as [Hl | Hl].
  - exists (repeat "*"%char (length (x :: local)) ++ "@"%char :: domain).
    rewrite E'. split; [apply mask_email_short; assumption|]. split.
    + cbn [length repeat app]. intros H. inversion H. congruence.
    + rewrite !length_app, repeat_length. reflexivity.
  - destruct (edges (x :: local)) as [first [mid [last [El Hm]]]]; [lia|].
    inversion El; subst first.
    destruct mid as [|y mid]; [cbn [length] in Hl, Hm; lia|].
    assert (Hy : y <> "*"%char).
    { destruct w as [|y' w']; [cbn [length] in Lw; lia|].
      assert (y' = y).
      { rewrite E' in E. rewrite El in E. cbn [app] in E.
        inversion E. reflexivity. }
      subst y'. inversion F as [|? ? _ F']; subst.
      inversion F'; assumption. }
    exists ((x :: repeat "*"%char (length (y :: mid)) ++ [last])
            ++ "@"%char :: domain).
    rewrite E', El. split; [apply mask_email_long; [assumption|]|].
    + cbn [length]. lia.
    + split.
      * cbn [length repeat app]. intros H. inversion H. congruence.
      * cbn [length]. rewrite !length_app. cbn [length].
        rewrite !length_app, repeat_length. reflexivity.
Qed.

Lemma email_rule_always_masks_witness :
  In "@"%char (lit "li@co.com") /\
  exists out, _mask_email "li@co.com" = Ok out /\ out <> lit "li@co.com" /\
              length out = length (lit "li@co.com").
Proof.
  apply (email_rule_always_masks "li@co.com"). vm_compute. reflexivity.
Defined.

(** ** Upper and lower case *)

Lemma substring_chars (sub s : str) (P : ascii -> Prop) :
  substring sub s -> Forall P s -> Forall P sub.
Proof.
  intros [pre [post ->]] F.
  apply Forall_app in F. destruct F as [_ F].
  apply Forall_app in F. tauto.
Qed.

Lemma lower_chars_fixed (s : str) :
  Forall (fun c => lower_char c = c) (lower s).
Proof.
  apply Forall_forall. intros c Hc. unfold lower in Hc.
  apply in_map_iff in Hc. destruct Hc as [c' [<- _]]. apply lower_char_idem.
Qed.

Lemma lower_fixed (s : str) :
  Forall (fun c => lower_char c = c) s -> lower s = s.
Proof.
  induction 1 as [|c s Hc _ IH]; [reflexivity|].
  unfold lower in *. cbn [map]. rewrite Hc, IH. reflexivity.
Qed.

(** X10.  [mask_value] reads the field name through [lower] only: two
    names that differ in case alone are treated alike, and a name may be
    replaced by its lowercase form. *)
Theorem field_name_case_insensitive (self : DataMasker) (v : value) :
  (forall f1 f2 : str,
     lower f1 = lower f2 -> mask_value self f1 v = mask_value self f2 v) /\
  (forall f : str, mask_value self (lower f) v = mask_value self f v).
Proof.
  assert (H : forall f1 f2 : str,
            lower f1 = lower f2 -> mask_value self f1 v = mask_value self f2 v).
  { intros f1 f2 E. unfold mask_value. rewrite E. reflexivity. }
  split; [exact H|]. intros f. apply H. apply lower_idem.
Qed.

Lemma field_name_case_insensitive_witness :
  mask_value data_masker "E-Mail" (VStr "li@co.com")
  = mask_value data_masker "e-mail" (VStr "li@co.com").
Proof.
  destruct (field_name_case_insensitive data_masker (VStr "li@co.com"))
    as [H _].
  apply (H (lit "E-Mail") (lit "e-mail")). vm_compute. reflexivity.
Defined.

(** X11.  The fragments are compared as they are, against a lowercased
    name: a fragment that is not already in lower case occurs in no field
    name, and a masker all of whose fragments are such (as one built from
    the list [["Email"]]) returns every value and every well-formed record
    unchanged. *)
Theorem mixed_case_fragment_never_matches :
  (forall fragment field_name : str,
     lower fragment <> fragment ->
     contains fragment (lower field_name) = false) /\
  (forall self : DataMasker,
     (forall fragment, In fragment (masked_fields self) ->
                       lower fragment <> fragment) ->
     (forall field_name v, mask_value self field_name v = Ok v) /\
     (forall data, well_formed (VDict data) = true ->
                   mask_dict self data = Ok data)).
Proof.
  assert (H : forall fragment field_name : str,
            lower fragment <> fragment ->
            contains fragment (lower field_name) = false).
  { intros fragment field_name Hne.
    destruct (contains fragment (lower field_name)) eqn:E; [|reflexivity].
    exfalso. apply Hne. apply lower_fixed.
    apply contains_spec in E.
    exact (substring_chars _ _ _ E (lower_chars_fixed field_name)). }
  split; [exact H|]. intros self Hall.
  assert (M : forall k, masks self k = false).
  { intros k. unfold masks, should_mask.
    replace (existsb (fun masked => contains masked (lower k))
                     (masked_fields self)) with false;
      [apply andb_false_r|].
    symmetry. apply not_true_is_false. intros E.
    apply existsb_exists in E. destruct E as [m [Hin Hc]].
    rewrite (H m k (Hall m Hin)) in Hc. discriminate. }
  split.
  - intros field_name v. apply mask_value_unmasked, M.
  - intros data Hwf. rewrite mask_dict_pure by exact Hwf. f_equal.
    pose proof (field_identity self M (VDict data) []) as E.
    cbn [mask_field_with] in E. rewrite mask_pure_dict in E.
    inversion E as [E']. rewrite E'. exact E'.
Qed.

Lemma mixed_case_fragment_never_matches_witness :
  mask_value (DataMasker__init__ Settings.default (Some [lit "Email"]))
             "email" (VStr "li@co.com")
  = Ok (VStr "li@co.com").
Proof.
  destruct mixed_case_fragment_never_matches as [_ H].
  destruct (H (DataMasker__init__ Settings.default (Some [lit "Email"])))
    as [H' _].
  - intros fragment [<- | []]. vm_compute. discriminate.
  - apply H'.
Defined.

(** X12.  Sensitivity goes by substring of the lowercased name, so it is
    handed on to every name whose lowercased form contains the lowercased
    form of a masked name. *)
Theorem longer_name_stays_masked (self : DataMasker) (field_name : str) :
  masks self field_name = true ->
  forall longer : str,
    substring (lower field_name) (lower longer) ->
    masks self longer = true.
Proof.
  intros M longer [before [after E]]. apply masks_spec in M. apply masks_spec.
  destruct M as [He [m [Hin [pre [post E']]]]]. split; [exact He|].
  exists m. split; [exact Hin|].
  exists (before ++ pre), (post ++ after).
  rewrite E, E', <- !app_assoc. reflexivity.
Qed.

Lemma longer_name_stays_masked_witness :
  masks data_masker "primary_Phone_ext" = true.
Proof.
  apply (longer_name_stays_masked data_masker "PHONE").
  - vm_compute. reflexivity.
  - exists (lit "primary_"), (lit "_ext"). reflexivity.
Defined.

(** ** The list of fragments read from the settings *)

Lemma split_length (sep : ascii) (s : str) :
  length (split sep s) = S (occurrences sep s).
Proof.
  unfold occurrences. induction s as [|c s IH]; [reflexivity|].
  cbn [split filter]. rewrite (Ascii.eqb_sym sep c).
  destruct (Ascii.eqb c sep).
  - cbn [length]. rewrite IH. reflexivity.
  - destruct (split sep s) as [|p ps]; [discriminate IH|].
    cbn [length] in *. exact IH.
Qed.

Lemma lstrip_idem (s : str) : lstrip (lstrip s) = lstrip s.
Proof.
  induction s as [|c s IH]; [reflexivity|]. cbn [lstrip].
  destruct (isspace c) eqn:E; [exact IH|]. cbn [lstrip]. rewrite E.
  reflexivity.
Qed.

Lemma lstrip_suffix (s : str) : exists pre, s = pre ++ lstrip s.
Proof.
  induction s as [|c s [pre IH]]; [exists []; reflexivity|]. cbn [lstrip].
  destruct (isspace c).
  - exists (c :: pre). cbn [app]. rewrite <- IH. reflexivity.
  - exists []. reflexivity.
Qed.

Lemma lstrip_head (s : str) :
  lstrip s = [] \/ exists h tl, lstrip s = h :: tl /\ isspace h = false.
Proof.
  induction s as [|c s IH]; [left; reflexivity|]. cbn [lstrip].
  destruct (isspace c) eqn:E; [exact IH|].
  right. exists c, s. split; [reflexivity | exact E].
Qed.

Lemma lstrip_keeps (h : ascii) (tl : str) :
  isspace h = false -> lstrip (h :: tl) = h :: tl.
Proof. intros E. cbn [lstrip]. rewrite E. reflexivity. Qed.

Lemma lstrip_blank (s : str) : forallb isspace s = true -> lstrip s = [].
Proof.
  induction s as [|c s IH]; [reflexivity|]. cbn [forallb lstrip].
  intros H. apply andb_true_iff in H. destruct H as [-> H]. exact (IH H).
Qed.

Lemma strip_idem (s : str) : strip (strip s) = strip s.
Proof.
  unfold strip.
  set (t := lstrip s). set (u := lstrip (rev t)).
  assert (Hu : lstrip u = u) by apply lstrip_idem.
  assert (Hr : lstrip (rev u) = rev u).
  { destruct (lstrip_suffix (rev t)) as [pre Hp]. fold u in Hp.
    assert (Ht : t = rev u ++ rev pre).
    { rewrite <- (rev_involutive t), Hp, rev_app_distr. reflexivity. }
    destruct (rev u) as [|h tl] eqn:Er; [reflexivity|].
    apply lstrip_keeps.
    destruct (lstrip_head s) as [E | [h' [tl' [E Hs]]]]; fold t in E.
    - rewrite E in Ht. discriminate Ht.
    - rewrite E in Ht. cbn [app] in Ht. inversion Ht; subst. exact Hs. }
  rewrite Hr, rev_involutive, Hu. reflexivity.
Qed.

Lemma lstrip_lower (s : str) : lstrip (lower s) = lower (lstrip s).
Proof.
  induction s as [|c s IH]; [reflexivity|].
  unfold lower in *. cbn [map lstrip]. rewrite isspace_lower_char.
  destruct (isspace c); [exact IH | reflexivity].
Qed.

Lemma strip_lower (s : str) : strip (lower s) = lower (strip s).
Proof.
  unfold strip. rewrite lstrip_lower.
  unfold lower at 1. rewrite <- map_rev. fold (lower (rev (lstrip s))).
  rewrite lstrip_lower. unfold lower. rewrite map_rev. reflexivity.
Qed.

(** X13.  [masked_fields_list] yields one fragment per comma-separated
    piece of the settings string, one more than it has commas and so never
    none, and every fragment is in lower case and has no whitespace at
    either end. *)
Theorem masked_fields_list_normalised (settings : Settings.t) :
  length (Settings.masked_fields_list settings)
  = S (occurrences "," (Settings.masked_fields settings)) /\
  (forall fragment,
     In fragment (Settings.masked_fields_list settings) ->
     lower fragment = fragment /\ strip fragment = fragment).
Proof.
  unfold Settings.masked_fields_list. split.
  - rewrite length_map. apply split_length.
  - intros fragment Hin. apply in_map_iff in Hin.
    destruct Hin as [piece [<- _]]. split; [apply lower_idem|].
    rewrite strip_lower, strip_idem. reflexivity.
Qed.

Lemma masked_fields_list_normalised_witness :
  Settings.masked_fields_list
    {| Settings.enable_data_masking := true;
       Settings.masked_fields := " Email , PHONE" |}
  = [lit "email"; lit "phone"] /\
  lower (lit "phone") = lit "phone" /\ strip (lit "phone") = lit "phone".
Proof.
  split; [vm_compute; reflexivity|].
  destruct (masked_fields_list_normalised
              {| Settings.enable_data_masking := true;
                 Settings.masked_fields := " Email , PHONE" |}) as [_ H].
  apply (H (lit "phone")). vm_compute. right; left; reflexivity.
Defined.

Lemma contains_empty (s : str) : contains [] s = true.
Proof. destruct s; reflexivity. Qed.

(** X14.  A piece of the settings string that is empty or all whitespace
    (an empty string, a trailing comma, two commas in a row) becomes the
    empty fragment, which occurs in every name: with masking enabled the
    masker built from such settings masks every field, so every value but
    [None] comes back as a masked string. *)
Theorem blank_piece_masks_everything (settings : Settings.t) :
  Settings.enable_data_masking settings = true ->
  (exists piece, In piece (split "," (Settings.masked_fields settings)) /\
                 forallb isspace piece = true) ->
  forall (field_name : str) (v : value),
    masks (DataMasker__init__ settings None) field_name = true /\
    (v <> VScalar SNone ->
     exists masked,
       mask_value (DataMasker__init__ settings None) field_name v
       = Ok (VStr masked)).
Proof.
  intros He [piece [Hin Hb]] field_name v.
  assert (M : masks (DataMasker__init__ settings None) field_name = true).
  { unfold masks. cbn [DataMasker__init__ enabled]. rewrite He. cbn [andb].
    unfold should_mask. cbn [masked_fields]. apply existsb_exists.
    exists []. split; [|apply contains_empty].
    unfold Settings.masked_fields_list. apply in_map_iff.
    exists piece. split; [|exact Hin].
    unfold strip. rewrite (lstrip_blank piece Hb). reflexivity. }
  split; [exact M|]. intros Hv.
  unfold masks in M. apply andb_true_iff in M. destruct M as [He' Hs].
  destruct (selected_total field_name (py_str v)) as [m Hm].
  exists m.
  rewrite mask_value_masked by (try assumption; apply is_None_false, Hv).
  rewrite Hm. reflexivity.
Qed.

Lemma blank_piece_masks_everything_witness :
  masks (DataMasker__init__
           {| Settings.enable_data_masking := true;
              Settings.masked_fields := "email," |} None) "name" = true /\
  (VStr "Wang" <> VScalar SNone ->
   exists masked,
     mask_value (DataMasker__init__
                   {| Settings.enable_data_masking := true;
                      Settings.masked_fields := "email," |} None)
                "name" (VStr "Wang")
     = Ok (VStr masked)).
Proof.
  apply (blank_piece_masks_everything
           {| Settings.enable_data_masking := true;
              Settings.masked_fields := "email," |}).
  - reflexivity.
  - exists []. split; vm_compute; [right; left; reflexivity | reflexivity].
Defined.

(** ** Lists of records *)

Lemma map_m_Forall2 {A B : Type} (f : A -> result B) (l : list A)
    (bs : list B) :
  map_m f l = Ok bs -> Forall2 (fun a b => f a = Ok b) l bs.
Proof.
  revert bs. induction l as [|a l IH]; intros bs H.
  - cbn [map_m] in H. inversion H. constructor.
  - cbn [map_m] in H. destruct (f a) as [b|e] eqn:E; [|discriminate H].
    cbn [bind] in H. destruct (map_m f l) as [bs'|e]; [|discriminate H].
    cbn [bind] in H. inversion H; subst. constructor; [exact E|].
    apply IH. reflexivity.
Qed.

Lemma mask_dict_rec_not_dict (self : DataMasker) (v : value) :
  is_dict v = false -> mask_dict_rec self v = Raise AttributeError.
Proof. destruct v; [reflexivity | discriminate | reflexivity]. Qed.

Lemma mask_dict_rec_dict (self : DataMasker) (v : value) :
  is_dict v = true -> exists out, mask_dict_rec self v = Ok out.
Proof.
  destruct v as [x | d | l]; try discriminate. intros _.
  apply (mask_dict_total self d).
Qed.

Lemma mask_list_raises (self : DataMasker) (data : list value) :
  forallb is_dict data = false -> mask_list self data = Raise AttributeError.
Proof.
  unfold mask_list. induction data as [|item data IH]; [discriminate|].
  cbn [forallb map_m]. destruct (is_dict item) eqn:E.
  - cbn [andb]. intros H.
    destruct (mask_dict_rec_dict self item E) as [out ->]. cbn [bind].
    rewrite (IH H). reflexivity.
  - intros _. rewrite (mask_dict_rec_not_dict self item E). reflexivity.
Qed.

(** X15.  [mask_list] masks a list of records element by element, in
    order: on a list that holds only dicts it returns as many dicts, the
    i-th being what [mask_dict] makes of the i-th; on a list that holds
    anything else it raises [AttributeError]. *)
Theorem mask_list_spec (self : DataMasker) (data : list value) :
  (forallb is_dict data = true ->
   exists out,
     mask_list self data = Ok out /\ length out = length data /\
     Forall2 (fun item masked =>
                exists d, item = VDict d /\ mask_dict self d = Ok masked)
             data out) /\
  (forallb is_dict data = false ->
   mask_list self data = Raise AttributeError).
Proof.
  split; [|apply mask_list_raises].
  intros H. rewrite forallb_forall in H.
  destruct (mask_list_total self data) as [out E].
  { intros item Hin. specialize (H item Hin).
    destruct item as [x | d | l]; try discriminate H. exists d; reflexivity. }
  exists out. split; [exact E|].
  apply map_m_Forall2 in E. split.
  - symmetry. exact (Forall2_length E).
  - revert H. induction E as [|item masked data out R _ IH]; intros H;
      constructor.
    + specialize (H item (or_introl eq_refl)).
      destruct item as [x | d | l]; try discriminate H.
      exists d. split; [reflexivity | exact R].
    + apply IH. intros it Hin. apply H. right; exact Hin.
Qed.

Lemma mask_list_spec_witness :
  (exists out,
     mask_list data_masker [VDict team_record; VDict nested_list_record]
     = Ok out /\ length out = 2 /\
     Forall2 (fun item masked =>
                exists d, item = VDict d /\
                          mask_dict data_masker d = Ok masked)
             [VDict team_record; VDict nested_list_record] out) /\
  mask_list data_masker [VDict team_record; VStr "x"] = Raise AttributeError.
Proof.
  destruct (mask_list_spec data_masker
              [VDict team_record; VDict nested_list_record]) as [H _].
  destruct (mask_list_spec data_masker [VDict team_record; VStr "x"])
    as [_ H'].
  split; [apply H | apply H']; reflexivity.
Defined.

(** X16.  The masking step of [fetch_from_api] fails on exactly one kind
    of response body: a JSON list with an element that is no object, where
    [mask_list] raises [AttributeError], which the surrounding handler for
    HTTP errors does not catch.  On every other body it returns: a list of
    objects stays a list of as many objects, an object stays an object, a
    scalar is passed on as it is. *)
Theorem fetch_from_api_mask_spec (self : DataMasker) (data : value) :
  (fetch_from_api_mask self data = Raise AttributeError <->
   exists items item,
     data = VList items /\ In item items /\ is_dict item = false) /\
  ((forall items, data = VList items -> forallb is_dict items = true) ->
   exists out,
     fetch_from_api_mask self data = Ok out /\
     match data, out with
     | VList items, VList outs =>
         length outs = length items /\ forallb is_dict outs = true
     | VDict _, VDict _ => True
     | VScalar x, VScalar y => x = y
     | _, _ => False
     end).
Proof.
  split.
  - split.
    + destruct data as [x | d | items]; cbn [fetch_from_api_mask].
      * discriminate.
      * destruct (mask_dict_total self d) as [out ->]. discriminate.
      * intros H. destruct (forallb is_dict items) eqn:E.
        -- destruct (mask_list_spec self items) as [Hok _].
           destruct (Hok E) as [out [R _]]. rewrite R in H. discriminate H.
        -- assert (N : ~ (forall item, In item items -> is_dict item = true)).
           { intros A. apply forallb_forall in A. congruence. }
           destruct (existsb (fun item => negb (is_dict item)) items) eqn:X.
           ++ apply existsb_exists in X. destruct X as [item [Hin Hn]].
              exists items, item. apply negb_true_iff in Hn. tauto.
           ++ exfalso. apply N. intros item Hin.
              destruct (is_dict item) eqn:D; [reflexivity|].
              assert (X' : existsb (fun item => negb (is_dict item)) items
                           = true).
              { apply existsb_exists. exists item. rewrite D. tauto. }
              congruence.
    + intros [items [item [-> [Hin Hn]]]]. cbn [fetch_from_api_mask].
      rewrite mask_list_raises; [reflexivity|].
      apply not_true_is_false. intros A. rewrite forallb_forall in A.
      rewrite (A item Hin) in Hn. discriminate.
  - intros H. destruct data as [x | d | items]; cbn [fetch_from_api_mask].
    + exists (VScalar x). split; reflexivity.
    + destruct (mask_dict_total self d) as [out ->].
      exists (VDict out). split; [reflexivity | exact I].
    + destruct (mask_list_spec self items) as [Hok _].
      destruct (Hok (H items eq_refl)) as [out [R [L _]]]. rewrite R.
      exists (VList (map VDict out)). split; [reflexivity|].
      rewrite length_map. split; [exact L|].
      apply forallb_forall. intros v Hv. apply in_map_iff in Hv.
      destruct Hv as [d [<- _]]. reflexivity.
Qed.

Lemma fetch_from_api_mask_spec_witness :
  fetch_from_api_mask data_masker (VList [VScalar (SInt 1)])
  = Raise AttributeError /\
  exists out,
    fetch_from_api_mask data_masker (VList [VDict team_record]) = Ok out /\
    match out with
    | VList outs => length outs = 1 /\ forallb is_dict outs = true
    | _ => False
    end.
Proof.
  split.
  - destruct (fetch_from_api_mask_spec data_masker (VList [VScalar (SInt 1)]))
      as [[_ H] _].
    apply H. exists [VScalar (SInt 1)], (VScalar (SInt 1)).
    split; [reflexivity|]. split; [left; reflexivity | reflexivity].
  - destruct (fetch_from_api_mask_spec data_masker (VList [VDict team_record]))
      as [_ H].
    apply H. intros items E. inversion E; subst. reflexivity.
Defined.

(** ** The frame of a record *)

Section Frame.

Variable self : DataMasker.

Lemma leaf_frame (key : str) (v : value) :
  leaf self key v = v \/ exists s, leaf self key v = VStr s.
Proof.
  destruct (leaf_cases self key v) as [E | [_ E]]; [left | right]; exact E.
Qed.

Lemma field_frame (v : value) :
  forall key, same_frame v (mask_field_with (mask_pure self) self key v).
Proof.
  induction v as [x | items IH | elems IH] using value_ind'; intros key.
  - constructor. apply leaf_frame.
  - cbn [mask_field_with]. rewrite mask_pure_dict. constructor.
    apply Forall2_map_r. intros [k x] Hin. cbn [fst snd].
    split; [reflexivity|]. rewrite Forall_forall in IH. apply (IH (k, x) Hin).
  - rewrite mask_field_with_list. constructor.
    apply Forall2_map_r. intros item Hin. rewrite Forall_forall in IH.
    specialize (IH item Hin key).
    destruct item as [x | d | l].
    + right. split; [reflexivity|]. apply leaf_frame.
    + left. split; [reflexivity | exact IH].
    + right. split; [reflexivity|]. apply leaf_frame.
Qed.

Lemma pure_items_keys (items : dict) :
  map fst (pure_items self items) = map fst items.
Proof.
  unfold pure_items. rewrite map_map. apply map_ext. intros [k x]. reflexivity.
Qed.

(** Nothing changes under keys that are not masked. *)
Lemma field_identity_keys (v : value) :
  forall key,
    is_dict v = true \/ masks self key = false ->
    Forall (fun k => masks self k = false) (walked_keys v) ->
    mask_field_with (mask_pure self) self key v = v.
Proof.
  induction v as [x | items IH | elems IH] using value_ind';
    intros key Hk Hall.
  - destruct Hk as [Hk | Hk]; [discriminate Hk|].
    apply leaf_unmasked. exact Hk.
  - cbn [mask_field_with]. rewrite mask_pure_dict. f_equal.
    unfold pure_items. rewrite <- (map_id items) at 2. apply map_ext_in.
    intros [k x] Hin. f_equal.
    cbn [walked_keys] in Hall. rewrite Forall_flat_map in Hall.
    rewrite Forall_forall in Hall. specialize (Hall (k, x) Hin).
    cbn beta iota in Hall. inversion Hall as [|? ? Hk' Hx]; subst.
    rewrite Forall_forall in IH. apply (IH (k, x) Hin k); [right|]; assumption.
  - destruct Hk as [Hk | Hk]; [discriminate Hk|].
    rewrite mask_field_with_list. f_equal.
    rewrite <- (map_id elems) at 2. apply map_ext_in.
    intros item Hin.
    cbn [walked_keys] in Hall. rewrite Forall_flat_map in Hall.
    rewrite Forall_forall in Hall. specialize (Hall item Hin).
    rewrite Forall_forall in IH. specialize (IH item Hin key).
    destruct item as [x | d | l].
    + apply leaf_unmasked. exact Hk.
    + apply IH; [left; reflexivity | exact Hall].
    + apply leaf_unmasked. exact Hk.
Qed.

(** The scalar at a place the traversal walks to is replaced by what
    [mask_value] makes of it under the key the place belongs to. *)
Lemma get_leaf (x : scalar) :
  forall (n : nat) (path : list step) (d : dict) (k : str),
    length path <= n -> walked path = true -> governing path = Some k ->
    get path (VDict d) = Some (VScalar x) ->
    get path (VDict (pure_items self d)) = Some (leaf self k (VScalar x)).
Proof.
  induction n as [|n IHn]; intros path d k Hlen Hw Hg Hget.
  - destruct path; [discriminate Hget | cbn [length] in Hlen; lia].
  - destruct path as [|[key|i] rest]; try discriminate Hget.
    cbn [get] in Hget |- *. rewrite lookup_pure_items.
    destruct (lookup key d) as [y|]; [|discriminate Hget]. cbn [option_map].
    cbn [length] in Hlen.
    destruct y as [z | d' | l].
    + destruct rest as [|[?|?] ?]; try discriminate Hget.
      cbn [get] in Hget. inversion Hget; subst.
      cbn [governing] in Hg. inversion Hg; subst. reflexivity.
    + cbn [mask_field_with]. rewrite mask_pure_dict.
      destruct (governing_of_dict _ _ _ Hget) as [k' G].
      apply IHn; [lia | exact Hw | | exact Hget].
      rewrite G. f_equal. exact (governing_field _ _ _ _ Hg G).
    + rewrite mask_field_with_list.
      destruct rest as [|[?|i] rest']; try discriminate Hget.
      cbn [get] in Hget |- *. rewrite nth_error_map.
      destruct (nth_error l i) as [item|]; [|discriminate Hget].
      cbn [option_map]. cbn [length] in Hlen.
      destruct item as [z | d'' | l'].
      * destruct rest' as [|[?|?] ?]; try discriminate Hget.
        cbn [get] in Hget. inversion Hget; subst.
        cbn [governing] in Hg. inversion Hg; subst. reflexivity.
      * cbn [pure_elem]. rewrite mask_pure_dict.
        destruct (governing_of_dict _ _ _ Hget) as [k' G].
        destruct rest' as [|[k3|?] r]; try discriminate Hget.
        apply IHn; [cbn [length] in *; lia | exact Hw | | exact Hget].
        rewrite G. f_equal.
        apply (governing_field key (Item i :: Field k3 :: r)); [exact Hg|].
        exact G.
      * destruct rest' as [|[?|?] ?]; try discriminate Hget.
        discriminate Hw.
Qed.

Lemma get_scalar_governed (path : list step) (d : dict) (x : scalar) :
  get path (VDict d) = Some (VScalar x) -> exists k, governing path = Some k.
Proof. apply governing_of_dict. Qed.

End Frame.

(** X17.  For every well-formed record, with no condition on nested
    lists: [mask_dict] returns a record with the same keys in the same
    order, in every dict it walks; a list stays a list of as many elements;
    a scalar, and a list element that is no dict, is kept or replaced by a
    string. *)
Theorem frame_preserved (self : DataMasker) (data : dict) :
  well_formed (VDict data) = true ->
  exists out,
    mask_dict self data = Ok out /\
    map fst out = map fst data /\
    same_frame (VDict data) (VDict out).
Proof.
  intros Hwf. exists (pure_items self data).
  split; [apply mask_dict_pure; exact Hwf|].
  split; [apply pure_items_keys|].
  rewrite <- mask_pure_dict. apply (field_frame self (VDict data) []).
Qed.

Lemma frame_preserved_witness :
  exists out,
    mask_dict data_masker nested_list_record = Ok out /\
    map fst out = map fst nested_list_record /\
    same_frame (VDict nested_list_record) (VDict out).
Proof.
  apply (frame_preserved data_masker nested_list_record). reflexivity.
Defined.

(** X18.  A well-formed record in which no key of any dict the traversal
    walks is masked comes back equal to itself, whatever the settings. *)
Theorem unmasked_keys_identity (self : DataMasker) (data : dict) :
  well_formed (VDict data) = true ->
  forallb (fun k => negb (masks self k)) (walked_keys (VDict data)) = true ->
  mask_dict self data = Ok data.
Proof.
  intros Hwf Hk. rewrite mask_dict_pure by exact Hwf. f_equal.
  assert (E : mask_pure self (VDict data) = VDict data).
  { apply (field_identity_keys self (VDict data) []); [left; reflexivity|].
    apply Forall_forall. intros k Hin. rewrite forallb_forall in Hk.
    apply negb_true_iff. exact (Hk k Hin). }
  rewrite mask_pure_dict in E. inversion E as [E']. rewrite E'. exact E'.
Qed.

Lemma unmasked_keys_identity_witness :
  mask_dict data_masker
    [ (lit "name", VStr "Wang");
      (lit "team", VDict [(lit "tags", VList [VList [VStr "x"]; VStr "y"])]);
      (lit "projects", VList [VDict [(lit "budget", VScalar (SInt 800000))]]) ]
  = Ok [ (lit "name", VStr "Wang");
         (lit "team", VDict [(lit "tags", VList [VList [VStr "x"]; VStr "y"])]);
         (lit "projects",
          VList [VDict [(lit "budget", VScalar (SInt 800000))]]) ].
Proof.
  apply unmasked_keys_identity; vm_compute; reflexivity.
Defined.

(** X19.  [mask_dict] works leaf by leaf: the scalar at any place the
    traversal walks to is replaced by what [mask_value] returns for it
    under the last key on the way to that place, and by nothing else. *)
Theorem masked_leaf_by_leaf (self : DataMasker) (data : dict)
    (path : list step) (x : scalar) :
  well_formed (VDict data) = true ->
  walked path = true ->
  get path (VDict data) = Some (VScalar x) ->
  exists k r out,
    governing path = Some k /\
    mask_value self k (VScalar x) = Ok r /\
    mask_dict self data = Ok out /\
    get path (VDict out) = Some r.
Proof.
  intros Hwf Hw Hget.
  destruct (get_scalar_governed path data x Hget) as [k G].
  exists k, (leaf self k (VScalar x)), (pure_items self data).
  split; [exact G|]. split; [apply mask_value_leaf|].
  split; [apply mask_dict_pure; exact Hwf|].
  apply (get_leaf self x (length path)); [lia | exact Hw | exact G | exact Hget].
Qed.

Lemma masked_leaf_by_leaf_witness :
  exists k r out,
    governing [Field "reports"; Item 1; Field "email"] = Some k /\
    mask_value data_masker k (VScalar (SStr "b@co.com")) = Ok r /\
    mask_dict data_masker team_record = Ok out /\
    get [Field "reports"; Item 1; Field "email"] (VDict out) = Some r.
Proof.
  apply (masked_leaf_by_leaf data_masker team_record); vm_compute; reflexivity.
Defined.

(** X20.  No sensitive scalar is passed on: at any place the traversal
    walks to under a masked key, a scalar other than [None] comes back as
    the string the selected strategy makes of its text. *)
Theorem sensitive_leaf_is_masked (self : DataMasker) (data : dict)
    (path : list step) (k : str) (x : scalar) :
  well_formed (VDict data) = true ->
  walked path = true -> governing path = Some k ->
  masks self k = true -> x <> SNone ->
  get path (VDict data) = Some (VScalar x) ->
  exists masked out,
    selected k (str_scalar x) (str_scalar x) = Ok masked /\
    mask_dict self data = Ok out /\
    get path (VDict out) = Some (VStr masked).
Proof.
  intros Hwf Hw G M Hx Hget.
  destruct (selected_total k (str_scalar x)) as [m Hm].
  exists m, (pure_items self data). split; [exact Hm|].
  split; [apply mask_dict_pure; exact Hwf|].
  rewrite (get_leaf self x (length path) path data k);
    [| lia | exact Hw | exact G | exact Hget].
  f_equal. unfold leaf. unfold masks in M. apply andb_true_iff in M.
  destruct M as [He Hs].
  rewrite mask_value_masked; try assumption.
  - cbn [py_str]. rewrite Hm. reflexivity.
  - destruct x; try reflexivity. contradiction Hx; reflexivity.
Qed.

Lemma sensitive_leaf_is_masked_witness :
  exists masked out,
    selected "phone" (str_scalar (SStr "0912-345-678"))
             (str_scalar (SStr "0912-345-678")) = Ok masked /\
    mask_dict data_masker team_record = Ok out /\
    get [Field "phone"; Item 0] (VDict out) = Some (VStr masked).
Proof.
  apply (sensitive_leaf_is_masked data_masker team_record
           [Field "phone"; Item 0] "phone" (SStr "0912-345-678"));
    try (vm_compute; reflexivity).
  discriminate.
Defined.

(** X21.  [None] is never masked: at any place the traversal walks to, a
    [None] in the input is a [None] in the output, under a sensitive key as
    under any other. *)
Theorem none_stays_none (self : DataMasker) (data : dict)
    (path : list step) :
  well_formed (VDict data) = true ->
  walked path = true ->
  get path (VDict data) = Some (VScalar SNone) ->
  exists out,
    mask_dict self data = Ok out /\
    get path (VDict out) = Some (VScalar SNone).
Proof.
  intros Hwf Hw Hget.
  destruct (get_scalar_governed path data SNone Hget) as [k G].
  exists (pure_items self data).
  split; [apply mask_dict_pure; exact Hwf|].
  rewrite (get_leaf self SNone (length path) path data k);
    [| lia | exact Hw | exact G | exact Hget].
  unfold leaf. rewrite mask_value_None. reflexivity.
Qed.

Lemma none_stays_none_witness :
  exists out,
    mask_dict data_masker team_record = Ok out /\
    get [Field "phone"; Item 1] (VDict out) = Some (VScalar SNone).
Proof.
  apply (none_stays_none data_masker team_record); vm_compute; reflexivity.
Defined.

(** ** Reading back the settings string *)

Lemma join_cons (sep p q : str) (rest : list str) :
  join sep (p :: q :: rest) = p ++ sep ++ join sep (q :: rest).
Proof. reflexivity. Qed.

Lemma join_split (sep : ascii) (s : str) : join [sep] (split sep s) = s.
Proof.
  induction s as [|c s IH]; [reflexivity|]. cbn [split].
  destruct (Ascii.eqb c sep) eqn:E.
  - apply Ascii.eqb_eq in E. subst c.
    destruct (split sep s) as [|p ps] eqn:Es;
      [exact (False_ind _ (split_nonempty _ _ Es))|].
    rewrite join_cons, IH. reflexivity.
  - destruct (split sep s) as [|p ps] eqn:Es;
      [exact (False_ind _ (split_nonempty _ _ Es))|].
    destruct ps as [|q ps].
    + cbn [join] in *. rewrite IH. reflexivity.
    + rewrite join_cons in *. rewrite <- IH. reflexivity.
Qed.

Lemma split_pieces (P : ascii -> Prop) (sep : ascii) (s : str) :
  Forall P s -> Forall (Forall P) (split sep s).
Proof.
  induction 1 as [|c s Hc _ IH]; [repeat constructor|]. cbn [split].
  destruct (Ascii.eqb c sep); [constructor; [constructor | exact IH]|].
  destruct (split sep s) as [|p ps]; [repeat constructor; exact Hc|].
  inversion IH; subst. constructor; [constructor|]; assumption.
Qed.

Lemma lstrip_no_space (s : str) :
  Forall (fun c => isspace c = false) s -> lstrip s = s.
Proof.
  intros F. destruct F as [|c s Hc _]; [reflexivity|].
  apply lstrip_keeps. exact Hc.
Qed.

Lemma strip_no_space (s : str) :
  Forall (fun c => isspace c = false) s -> strip s = s.
Proof.
  intros F. unfold strip. rewrite (lstrip_no_space s F).
  rewrite lstrip_no_space by (apply Forall_rev; exact F).
  apply rev_involutive.
Qed.

(** X22.  A settings string with no upper-case letter and no whitespace
    is read without loss: its fragments are exactly its comma-separated
    pieces, and joining them with commas gives the string back. *)
Theorem masked_fields_list_round_trip (settings : Settings.t) :
  Forall (fun c => lower_char c = c /\ isspace c = false)
         (Settings.masked_fields settings) ->
  Settings.masked_fields_list settings
  = split "," (Settings.masked_fields settings) /\
  join "," (Settings.masked_fields_list settings)
  = Settings.masked_fields settings.
Proof.
  intros F.
  assert (E : Settings.masked_fields_list settings
              = split "," (Settings.masked_fields settings)).
  { unfold Settings.masked_fields_list.
    rewrite <- (map_id (split "," (Settings.masked_fields settings))) at 2.
    apply map_ext_in. intros piece Hin.
    pose proof (split_pieces _ ","%char _ F) as Hp.
    rewrite Forall_forall in Hp. specialize (Hp piece Hin).
    rewrite strip_no_space
      by (eapply Forall_impl; [|exact Hp]; cbn beta; tauto).
    apply lower_fixed. eapply Forall_impl; [|exact Hp]. cbn beta. tauto. }
  split; [exact E|]. rewrite E. apply (join_split ","%char).
Qed.

Lemma clean_check (s : str) :
  forallb (fun c => Ascii.eqb (lower_char c) c && negb (isspace c)) s = true ->
  Forall (fun c => lower_char c = c /\ isspace c = false) s.
Proof.
  intros H. rewrite forallb_forall in H. apply Forall_forall. intros c Hc.
  specialize (H c Hc). apply andb_true_iff in H. destruct H as [H1 H2].
  apply Ascii.eqb_eq in H1. apply negb_true_iff in H2. tauto.
Qed.

Lemma masked_fields_list_round_trip_witness :
  Settings.masked_fields_list Settings.default
  = split "," (Settings.masked_fields Settings.default) /\
  join "," (Settings.masked_fields_list Settings.default)
  = Settings.masked_fields Settings.default.
Proof.
  apply (masked_fields_list_round_trip Settings.default).
  apply clean_check. vm_compute. reflexivity.
Defined.

(** ** The sample tables under the default masker *)

(** X23.  Under the default settings, a row of the employees table comes
    back with its eight columns in order and only two of them rewritten:
    [email] and [phone] hold what [mask_value] returns for them, while
    [id], [name], [department], [position], [salary] and [hire_date] are
    passed on as they are.  A row of the projects table comes back
    unchanged. *)
Theorem sample_tables_masking :
  (forall id name email department position salary hire_date phone : scalar,
     exists e p,
       mask_value data_masker "email" (VScalar email) = Ok e /\
       mask_value data_masker "phone" (VScalar phone) = Ok p /\
       mask_dict data_masker
         (employees_row id name email department position salary hire_date
                        phone)
       = Ok [ (lit "id", VScalar id); (lit "name", VScalar name);
              (lit "email", e); (lit "department", VScalar department);
              (lit "position", VScalar position);
              (lit "salary", VScalar salary);
              (lit "hire_date", VScalar hire_date); (lit "phone", p) ]) /\
  (forall id name description status start_date end_date budget manager_id
          : scalar,
     mask_dict data_masker
       (projects_row id name description status start_date end_date budget
                     manager_id)
     = Ok (projects_row id name description status start_date end_date budget
                        manager_id)).
Proof.
  split.
  - intros id name email department position salary hire_date phone.
    exists (leaf data_masker "email" (VScalar email)),
           (leaf data_masker "phone" (VScalar phone)).
    split; [apply mask_value_leaf|]. split; [apply mask_value_leaf|].
    rewrite mask_dict_pure by reflexivity.
    unfold employees_row, pure_items. cbn [map mask_field_with].
    rewrite (leaf_unmasked data_masker "id") by (vm_compute; reflexivity).
    rewrite (leaf_unmasked data_masker "name") by (vm_compute; reflexivity).
    rewrite (leaf_unmasked data_masker "department")
      by (vm_compute; reflexivity).
    rewrite (leaf_unmasked data_masker "position")
      by (vm_compute; reflexivity).
    rewrite (leaf_unmasked data_masker "salary") by (vm_compute; reflexivity).
    rewrite (leaf_unmasked data_masker "hire_date")
      by (vm_compute; reflexivity).
    reflexivity.
  - intros id name description status start_date end_date budget manager_id.
    rewrite mask_dict_pure by reflexivity.
    unfold projects_row, pure_items. cbn [map mask_field_with].
    rewrite (leaf_unmasked data_masker "id") by (vm_compute; reflexivity).
    rewrite (leaf_unmasked data_masker "name") by (vm_compute; reflexivity).
    rewrite (leaf_unmasked data_masker "description")
      by (vm_compute; reflexivity).
    rewrite (leaf_unmasked data_masker "status") by (vm_compute; reflexivity).
    rewrite (leaf_unmasked data_masker "start_date")
      by (vm_compute; reflexivity).
    rewrite (leaf_unmasked data_masker "end_date")
      by (vm_compute; reflexivity).
    rewrite (leaf_unmasked data_masker "budget") by (vm_compute; reflexivity).
    rewrite (leaf_unmasked data_masker "manager_id")
      by (vm_compute; reflexivity).
    reflexivity.
Qed.

(** ** Prompt templates *)

Lemma replace_from_passed (old new : str) (s : str) (k : nat) :
  length s <= k -> replace_from old new k s = [].
Proof.
  revert k. induction s as [|c s IH]; intros k H; [reflexivity|].
  cbn [length] in H. destruct k as [|k]; [lia|].
  cbn [replace_from]. apply IH. lia.
Qed.




Lemma startswith_refl (s : str) : startswith s s = true.
Proof. apply startswith_spec. exists []. symmetry. apply app_nil_r. Qed.

(** [replace] of a string that is [old] itself. *)
Lemma replace_exact (old new : str) :
  old <> [] -> replace old new old = new.
Proof.
  intros Hne. destruct old as [|o old]; [contradiction Hne; reflexivity|].
  unfold replace. cbn [replace_from]. rewrite (startswith_refl (o :: old)).
  rewrite replace_from_passed by (cbn [length]; lia).
  apply app_nil_r.
Qed.













Lemma str_eqb_sym_bool (a b : str) : str_eqb a b = str_eqb b a.
Proof.
  destruct (str_eqb a b) eqn:E.
  - apply str_eqb_eq in E. subst. symmetry. apply str_eqb_refl.
  - symmetry. apply str_eqb_neq. intros ->. rewrite str_eqb_refl in E.
    discriminate.
Qed.

Lemma named_spec (var : str) (kwargs : list (str * str)) :
  existsb (str_eqb var) (map fst kwargs) = true <-> In var (map fst kwargs).
Proof.
  rewrite existsb_exists. split.
  - intros [k [Hin E]]. apply str_eqb_eq in E. subst. exact Hin.
  - intros H. exists var. split; [exact H | apply str_eqb_refl].
Qed.

Lemma validate_missing (t : Prompts.PromptTemplate)
    (kwargs : list (str * str)) (var : str) :
  In var (snd (Prompts.validate t kwargs)) <->
  In var (Prompts.variables t) /\ ~ In var (map fst kwargs).
Proof.
  unfold Prompts.validate. cbn [snd]. rewrite filter_In, negb_true_iff.
  rewrite <- named_spec.
  destruct (existsb (str_eqb var) (map fst kwargs)); intuition congruence.
Qed.

Lemma validate_valid (t : Prompts.PromptTemplate) (kwargs : list (str * str)) :
  fst (Prompts.validate t kwargs) = true <->
  snd (Prompts.validate t kwargs) = [].
Proof.
  unfold Prompts.validate. cbn [fst snd]. rewrite Nat.eqb_eq.
  split; [apply length_zero_iff_nil | intros ->; reflexivity].
Qed.

(** X25.  [PromptTemplate.validate] answers [True] exactly when every
    variable of the template is among the names of the keyword arguments,
    which is exactly when its list of missing variables is empty; that
    list holds the variables that are not among the names and nothing
    else.  Keyword arguments that are no variable are ignored. *)
Theorem validate_spec (t : Prompts.PromptTemplate) (kwargs : list (str * str)) :
  (fst (Prompts.validate t kwargs) = true <->
   forall var, In var (Prompts.variables t) -> In var (map fst kwargs)) /\
  (forall var,
     In var (snd (Prompts.validate t kwargs)) <->
     In var (Prompts.variables t) /\ ~ In var (map fst kwargs)) /\
  (fst (Prompts.validate t kwargs) = true <->
   snd (Prompts.validate t kwargs) = []).
Proof.
  split; [|split; [apply validate_missing | apply validate_valid]].
  rewrite validate_valid. split.
  - intros E var Hin.
    destruct (in_dec (list_eq_dec ascii_dec) var (map fst kwargs))
      as [H|H]; [exact H|].
    assert (M : In var (snd (Prompts.validate t kwargs)))
      by (apply validate_missing; tauto).
    rewrite E in M. destruct M.
  - intros H.
    destruct (snd (Prompts.validate t kwargs)) as [|var rest] eqn:E;
      [reflexivity|].
    assert (M : In var (snd (Prompts.validate t kwargs)))
      by (rewrite E; left; reflexivity).
    apply validate_missing in M. destruct M as [M1 M2].
    contradiction (M2 (H var M1)).
Qed.





Lemma set_get_same (lib : Prompts.PromptLibrary) (key : str)
    (t : Prompts.PromptTemplate) :
  Prompts.get (Prompts.set lib key t) key = Some t.
Proof.
  induction lib as [|[k x] lib IH]; cbn [Prompts.set Prompts.get].
  - rewrite str_eqb_refl. reflexivity.
  - destruct (str_eqb k key) eqn:E; cbn [Prompts.get]; rewrite E;
      [reflexivity | exact IH].
Qed.

Lemma set_get_other (lib : Prompts.PromptLibrary) (key other : str)
    (t : Prompts.PromptTemplate) :
  other <> key ->
  Prompts.get (Prompts.set lib key t) other = Prompts.get lib other.
Proof.
  intros H. induction lib as [|[k x] lib IH]; cbn [Prompts.set Prompts.get].
  - rewrite str_eqb_neq by congruence. reflexivity.
  - destruct (str_eqb k key) eqn:E; cbn [Prompts.get].
    + apply str_eqb_eq in E. subst k.
      rewrite str_eqb_neq by congruence. reflexivity.
    + destruct (str_eqb k other); [reflexivity | exact IH].
Qed.

Lemma set_keys (lib : Prompts.PromptLibrary) (key : str)
    (t : Prompts.PromptTemplate) :
  map fst (Prompts.set lib key t)
  = if existsb (str_eqb key) (map fst lib) then map fst lib
    else map fst lib ++ [key].
Proof.
  induction lib as [|[k x] lib IH]; [reflexivity|].
  cbn [Prompts.set map fst existsb].
  rewrite (str_eqb_sym_bool key k).
  destruct (str_eqb k key) eqn:E; cbn [orb map fst]; [reflexivity|].
  rewrite IH. destruct (existsb (str_eqb key) (map fst lib)); reflexivity.
Qed.

(** X27.  [register] followed by [get]: the template registered last
    under a name is the one [get] returns for it, every other name answers
    as before, and in the listing a name registered again keeps its place
    while a new name goes to the end. *)
Theorem register_then_get (lib : Prompts.PromptLibrary)
    (t : Prompts.PromptTemplate) :
  Prompts.get (Prompts.register lib t) (Prompts.name t) = Some t /\
  (forall other, other <> Prompts.name t ->
                 Prompts.get (Prompts.register lib t) other
                 = Prompts.get lib other) /\
  (In (Prompts.name t) (map fst lib) ->
   map fst (Prompts.register lib t) = map fst lib) /\
  (~ In (Prompts.name t) (map fst lib) ->
   map fst (Prompts.register lib t) = map fst lib ++ [Prompts.name t]).
Proof.
  unfold Prompts.register. split; [apply set_get_same|].
  split; [intros other H; apply set_get_other; exact H|].
  rewrite set_keys. split; intros H.
  - replace (existsb (str_eqb (Prompts.name t)) (map fst lib)) with true;
      [reflexivity|].
    symmetry. apply existsb_exists. exists (Prompts.name t).
    split; [exact H | apply str_eqb_refl].
  - replace (existsb (str_eqb (Prompts.name t)) (map fst lib)) with false;
      [reflexivity|].
    symmetry. apply not_true_is_false. intros E.
    apply existsb_exists in E. destruct E as [k [Hin Ek]].
    apply str_eqb_eq in Ek. subst k. contradiction.
Qed.

Lemma register_then_get_witness :
  map fst (Prompts.register
             [(lit "a", {| Prompts.name := "a"; Prompts.description := "";
                           Prompts.template := ""; Prompts.variables := [] |})]
             {| Prompts.name := "b"; Prompts.description := "";
                Prompts.template := "{{x}}"; Prompts.variables := [lit "x"] |})
  = [lit "a"; lit "b"].
Proof.
  destruct (register_then_get
    [(lit "a", {| Prompts.name := "a"; Prompts.description := "";
                  Prompts.template := ""; Prompts.variables := [] |})]
    {| Prompts.name := "b"; Prompts.description := "";
       Prompts.template := "{{x}}"; Prompts.variables := [lit "x"] |})
    as [_ [_ [_ H]]].
  apply H. vm_compute. intuition discriminate.
Defined.
